(** * pwnlib.tubes.process: a shallow embedding of the process tube

    The development follows [src/pwnlib/tubes/process.py].  Pure parts of
    the class (argument validation) are plain functions into an error
    type; the stateful parts (the raw tube primitives, the lifecycle
    methods, the child pre-exec routine, the launcher loop) are written in
    a small state-and-exception monad.  Everything the operating system
    decides (whether the child has exited, what [select] and [read]
    answer, whether a system call fails) is an explicit oracle argument,
    so every theorem quantifies over all answers the system can give. *)

From Stdlib Require Import ZArith List String Ascii Bool Lia.
From Stdlib Require Import Strings.Byte.
Import ListNotations.

Set Warnings "-register-all".
Local Open Scope Z_scope.
Local Open Scope string_scope.
Local Open Scope list_scope.

(** ** Python values, exceptions and the monad *)

(** The Python objects that reach the validator and the log messages. *)
Inductive pyval : Type :=
| VNone
| VInt (n : Z)
| VBytes (b : list byte)
| VStr (s : list ascii)
| VList (l : list pyval).

Definition pystr (s : string) : pyval := VStr (list_ascii_of_string s).

(** Exceptions.  In Python 3 [IOError] and [select.error] are aliases of
    [OSError]; [log.error] raises [PwnlibException] with the formatted
    message, kept here as the format string and its arguments. *)
Inductive exn : Type :=
| EOFError
| OSError (errno : Z) (strerror : string)
| ValueError (msg : string)
| TypeError
| AttributeError
| Exception_ (msg : string)
| PwnlibException (fmt : string) (args : list pyval).

Definition ENOEXEC : Z := 8.
Definition EINTR : Z := 4.

(** A call returns, raises, or does not come back at all. *)
Inductive outcome (A : Type) : Type :=
| Ret (a : A)
| Raise (e : exn)
| Hang.
Arguments Ret {A} a.
Arguments Raise {A} e.
Arguments Hang {A}.

Definition M (St A : Type) : Type := St -> St * outcome A.

Definition ret {St A} (a : A) : M St A := fun s => (s, Ret a).
Definition raise {St A} (e : exn) : M St A := fun s => (s, Raise e).
Definition hang {St A} : M St A := fun s => (s, Hang).

Definition bind {St A B} (m : M St A) (k : A -> M St B) : M St B :=
  fun s =>
    match m s with
    | (s', Ret a) => k a s'
    | (s', Raise e) => (s', Raise e)
    | (s', Hang) => (s', Hang)
    end.

Notation "x <- m ;; k" := (bind m (fun x => k))
  (at level 61, m at next level, right associativity).
Notation "m ;; k" := (bind m (fun _ => k))
  (at level 61, right associativity).

Definition gets {St A} (f : St -> A) : M St A := fun s => (s, Ret (f s)).
Definition modify {St} (f : St -> St) : M St unit := fun s => (f s, Ret tt).

(** [try: m except ...: h]: the handler [h] answers [None] for the
    exceptions its clauses do not catch.  State changes made by [m] before
    it raised are kept, as in Python. *)
Definition try_except {St A} (m : M St A) (h : exn -> option (M St A)) : M St A :=
  fun s =>
    match m s with
    | (s', Raise e) =>
        match h e with
        | Some k => k s'
        | None => (s', Raise e)
        end
    | r => r
    end.

(** [except OSError] (equally [except IOError], [except select.error]). *)
Definition is_OSError (e : exn) : bool :=
  match e with OSError _ _ => true | _ => false end.

Definition except_OSError {St A} (k : M St A) : exn -> option (M St A) :=
  fun e => if is_OSError e then Some k else None.

(** Attribute access on an optional object: [None.attr] raises. *)
Definition attr {St A} (o : option A) : M St A :=
  match o with
  | Some a => ret a
  | None => raise AttributeError
  end.

Definition is_none {A} (o : option A) : bool :=
  match o with None => true | Some _ => false end.

(** Truth value of a result that is a [bool] or [None]. *)
Definition truthy (o : option bool) : bool :=
  match o with Some b => b | None => false end.

(** The answer of a system or library call whose result the program
    cannot predict. *)
Inductive answer (A : Type) : Type :=
| Returns (a : A)
| Fails (e : exn).
Arguments Returns {A} a.
Arguments Fails {A} e.

(** A call that is recorded in a trace of actions and then answered. *)
Definition call {Act A} (a : Act) (r : answer A) : M (list Act) A :=
  fun tr =>
    (tr ++ [a],
     match r with
     | Returns x => Ret x
     | Fails e => Raise e
     end).

(** ** The process handle and the raw tube primitives *)

Module Tube.

(** A Python file object, as far as the class looks at it. *)
Record pyfile : Type := mkfile { closed : bool }.

(** [subprocess.Popen]: the three stream slots are [None] when the caller
    passed its own descriptor. *)
Record Popen : Type := mkPopen {
  stdin : option pyfile;
  stdout : option pyfile;
  stderr : option pyfile;
  returncode : option Z;
  pid : Z
}.

(** A record written through the tube's logger: [self.info(fmt % args)]. *)
Inductive log_record : Type :=
| Info (fmt : string) (args : list pyval).

(** The [process] object.  [timeout] is the tube's receive timeout
    ([None]: wait forever); [log] collects what the object reported. *)
Record process : Type := mkprocess {
  proc : option Popen;
  _stop_noticed : bool;
  executable : pyval;
  timeout : option Z;
  log : list log_record
}.

(** What [select.select([stdout], [], [], timeout)] does: it returns a
    read list that holds [stdout] or is empty, or it raises. *)
Inductive select_result : Type :=
| SelReturns (ready : bool)
| SelRaises (e : exn).

(** What [stdout.read(numb)] does on a non-blocking descriptor. *)
Inductive read_result : Type :=
| ReadBytes (data : list byte)
| ReadNone
| ReadRaises (e : exn).

(** The answers of the operating system during one call of a method. *)
Record world : Type := mkworld {
  child_status : option Z;
  wait_obs : list (option Z);
  select_res : option Z -> select_result;
  read_res : Z -> read_result;
  write_res : list byte -> option exn;
  flush_res : option exn;
  kill_res : option (Z * string);
  wait_status : Z
}.

Definition with_status (w : world) (o : option Z) : world :=
  mkworld o (wait_obs w) (select_res w) (read_res w) (write_res w)
          (flush_res w) (kill_res w) (wait_status w).

Definition P := M process.

(** *** Field updates *)

Definition set_proc (p : Popen) (s : process) : process :=
  mkprocess (Some p) (_stop_noticed s) (executable s) (timeout s) (log s).

Definition set_stop_noticed (b : bool) (s : process) : process :=
  mkprocess (proc s) b (executable s) (timeout s) (log s).

Definition add_log (r : log_record) (s : process) : process :=
  mkprocess (proc s) (_stop_noticed s) (executable s) (timeout s) (log s ++ [r]).

Definition set_returncode (rc : option Z) (p : Popen) : Popen :=
  mkPopen (stdin p) (stdout p) (stderr p) rc (pid p).

Definition set_stdin (f : option pyfile) (p : Popen) : Popen :=
  mkPopen f (stdout p) (stderr p) (returncode p) (pid p).

Definition set_stdout (f : option pyfile) (p : Popen) : Popen :=
  mkPopen (stdin p) f (stderr p) (returncode p) (pid p).

Definition set_stderr (f : option pyfile) (p : Popen) : Popen :=
  mkPopen (stdin p) (stdout p) f (returncode p) (pid p).

(** [self.proc], an [AttributeError] on [None.x] when never spawned. *)
Definition get_proc : P Popen := fun s => attr (proc s) s.

(** An update of a field of [self.proc]. *)
Definition modify_proc (f : Popen -> Popen) : P unit :=
  fun s =>
    match proc s with
    | Some p => (set_proc (f p) s, Ret tt)
    | None => (s, Raise AttributeError)
    end.

Definition info (fmt : string) (args : list pyval) : P unit :=
  modify (add_log (Info fmt args)).

(** [program] is an alias of [executable]. *)
Definition program (s : process) : pyval := executable s.

(** *** The [subprocess] and file primitives the class calls *)

(** [Popen.poll()]: asks the system only while no status is recorded. *)
Definition record_status (status : option Z) (p : Popen) : Popen :=
  match returncode p with
  | Some _ => p
  | None => set_returncode status p
  end.

Definition Popen_poll (w : world) : P unit :=
  modify_proc (record_status (child_status w)).

(** [Popen.kill()]: the signal is sent, or [os.kill] raises [OSError]. *)
Definition Popen_kill (w : world) : P unit :=
  _ <- get_proc ;;
  match kill_res w with
  | Some (errno, strerror) => raise (OSError errno strerror)
  | None => ret tt
  end.

(** [Popen.wait()]: blocks until the child is reaped. *)
Definition Popen_wait (w : world) : P unit :=
  modify_proc (record_status (Some (wait_status w))).

(** [f.close()]: closing a closed file is allowed. *)
Definition file_close (f : pyfile) : pyfile := mkfile true.

Definition closed_file_error : exn := ValueError "I/O operation on closed file".

Definition select_ (w : world) (f : pyfile) (t : option Z) : P bool :=
  if closed f then raise closed_file_error
  else match select_res w t with
       | SelReturns ready => ret ready
       | SelRaises e => raise e
       end.

Definition file_read (w : world) (f : pyfile) (numb : Z) : P (option (list byte)) :=
  if closed f then raise closed_file_error
  else match read_res w numb with
       | ReadBytes d => ret (Some d)
       | ReadNone => ret None
       | ReadRaises e => raise e
       end.

Definition file_write (w : world) (f : pyfile) (data : list byte) : P unit :=
  if closed f then raise closed_file_error
  else match write_res w data with
       | Some e => raise e
       | None => ret tt
       end.

Definition file_flush (w : world) (f : pyfile) : P unit :=
  if closed f then raise closed_file_error
  else match flush_res w with
       | Some e => raise e
       | None => ret tt
       end.

(** *** The methods *)

(** [poll(block=False)]: the body of [poll] after the [block] test. *)
Definition poll_now (w : world) : P (option Z) :=
  Popen_poll w ;;
  p <- get_proc ;;
  noticed <- gets _stop_noticed ;;
  match returncode p with
  | Some rc =>
      if negb noticed then
        modify (set_stop_noticed true) ;;
        prog <- gets program ;;
        info "Program %r stopped with exit code %d" [prog; VInt rc]
      else ret tt
  | None => ret tt
  end ;;
  p' <- get_proc ;;
  ret (returncode p').

Definition connected_raw (w : world) (direction : string) : P (option bool) :=
  if String.eqb direction "any" then
    rc <- poll_now w ;;
    ret (Some (is_none rc))
  else if String.eqb direction "send" then
    p <- get_proc ;;
    f <- attr (stdin p) ;;
    ret (Some (negb (closed f)))
  else if String.eqb direction "recv" then
    p <- get_proc ;;
    f <- attr (stdout p) ;;
    ret (Some (negb (closed f)))
  else ret None.

(** Modelled from the spec: [tube.connected] and [tube.wait_for_close]
    belong to the tube base class, which is not part of the sources.
    "Waits for full closure": the wait asks [connected()] (that is
    [connected_raw('any')]) again and again; [wait_obs] lists what the
    system answers to the successive checks and [child_status] what it
    answers from then on, so a child that never exits makes the wait
    hang. *)
Fixpoint wait_for_close_loop (w : world) (obs : list (option Z)) : P unit :=
  match obs with
  | [] =>
      c <- connected_raw w "any" ;;
      if truthy c then hang else ret tt
  | o :: rest =>
      c <- connected_raw (with_status w o) "any" ;;
      if truthy c then wait_for_close_loop w rest else ret tt
  end.

Definition wait_for_close (w : world) : P unit :=
  wait_for_close_loop w (wait_obs w).

Definition poll (w : world) (block : bool) : P (option Z) :=
  (if block then wait_for_close w else ret tt) ;;
  poll_now w.

Definition can_recv_raw (w : world) (t : option Z) : P (option bool) :=
  c <- connected_raw w "recv" ;;
  if negb (truthy c) then ret (Some false)
  else
    (* The second clause, [except select.error], can catch nothing that
       the first one has not caught: both name [OSError]. *)
    try_except
      (p <- get_proc ;;
       f <- attr (stdout p) ;;
       ready <- select_ w f t ;;
       ret (Some ready))
      (except_OSError (raise EOFError)).

Definition close_fd (f : option pyfile) : option pyfile :=
  match f with
  | Some f' => Some (file_close f')
  | None => None
  end.

Definition close (w : world) : P unit :=
  sp <- gets proc ;;
  match sp with
  | None => ret tt
  | Some _ =>
      poll_now w ;;
      modify_proc (fun p => set_stdin (close_fd (stdin p)) p) ;;
      modify_proc (fun p => set_stdout (close_fd (stdout p)) p) ;;
      modify_proc (fun p => set_stderr (close_fd (stderr p)) p) ;;
      noticed <- gets _stop_noticed ;;
      if negb noticed then
        try_except
          (Popen_kill w ;;
           Popen_wait w ;;
           modify (set_stop_noticed true) ;;
           prog <- gets program ;;
           info "Stopped program %r" [prog])
          (except_OSError (ret tt))
      else ret tt
  end.

Definition kill (w : world) : P unit := close w.

Definition shutdown_raw (w : world) (direction : string) : P unit :=
  (if String.eqb direction "send" then
     p <- get_proc ;;
     f <- attr (stdin p) ;;
     modify_proc (set_stdin (Some (file_close f)))
   else ret tt) ;;
  (if String.eqb direction "recv" then
     p <- get_proc ;;
     f <- attr (stdout p) ;;
     modify_proc (set_stdout (Some (file_close f)))
   else ret tt) ;;
  p <- get_proc ;;
  fi <- attr (stdin p) ;;
  fo <- attr (stdout p) ;;
  if negb (existsb negb [closed fi; closed fo]) then close w else ret tt.

(** Modelled from the spec: [tube.shutdown] is a method of the tube base
    class, not part of the sources; "the recv direction is shut down"
    hands the direction to [shutdown_raw]. *)
Definition shutdown (w : world) (direction : string) : P unit :=
  shutdown_raw w direction.

Definition not_data (d : option (list byte)) : bool :=
  match d with
  | Some (_ :: _) => false
  | _ => true
  end.

Definition recv_raw (w : world) (numb : Z) : P (list byte) :=
  poll w false ;;
  c <- connected_raw w "recv" ;;
  if negb (truthy c) then raise EOFError
  else
    t <- gets timeout ;;
    r <- can_recv_raw w t ;;
    if negb (truthy r) then ret []
    else
      data <- try_except
                (p <- get_proc ;;
                 f <- attr (stdout p) ;;
                 file_read w f numb)
                (except_OSError (ret (Some []))) ;;
      if not_data data then
        shutdown w "recv" ;;
        raise EOFError
      else
        match data with
        | Some d => ret d
        | None => ret []
        end.

Definition send_raw (w : world) (data : list byte) : P unit :=
  poll w false ;;
  c <- connected_raw w "send" ;;
  if negb (truthy c) then raise EOFError
  else
    try_except
      (p <- get_proc ;;
       f <- attr (stdin p) ;;
       file_write w f data ;;
       p <- get_proc ;;
       f <- attr (stdin p) ;;
       file_flush w f)
      (except_OSError (raise EOFError)).

Definition settimeout_raw (t : option Z) : P unit := ret tt.

(** *** Sequences of calls on one handle *)

Inductive method : Type :=
| Poll (block : bool)
| RecvRaw (numb : Z)
| SendRaw (data : list byte)
| SettimeoutRaw (t : option Z)
| CanRecvRaw (t : option Z)
| ConnectedRaw (direction : string)
| Close
| Kill
| ShutdownRaw (direction : string).

(** The handle after one call, whatever the call returned or raised. *)
Definition run_method (w : world) (m : method) (s : process) : process :=
  match m with
  | Poll block => fst (poll w block s)
  | RecvRaw numb => fst (recv_raw w numb s)
  | SendRaw data => fst (send_raw w data s)
  | SettimeoutRaw t => fst (settimeout_raw t s)
  | CanRecvRaw t => fst (can_recv_raw w t s)
  | ConnectedRaw direction => fst (connected_raw w direction s)
  | Close => fst (close w s)
  | Kill => fst (kill w s)
  | ShutdownRaw direction => fst (shutdown_raw w direction s)
  end.

Definition run (calls : list (world * method)) (s : process) : process :=
  fold_left (fun s c => run_method (fst c) (snd c) s) calls s.

(** *** What never goes back *)

Definition is_closed (f : option pyfile) : bool :=
  match f with
  | Some f' => closed f'
  | None => false
  end.

Definition Popen_evolves (p p' : Popen) : Prop :=
  (is_closed (stdin p) = true -> is_closed (stdin p') = true) /\
  (is_closed (stdout p) = true -> is_closed (stdout p') = true) /\
  (forall rc, returncode p = Some rc -> returncode p' = Some rc).

Definition evolves (s s' : process) : Prop :=
  (forall p, proc s = Some p ->
             exists p', proc s' = Some p' /\ Popen_evolves p p') /\
  (_stop_noticed s = true -> _stop_noticed s' = true).

(** A computation that only moves the handle forward. *)
Definition mono {A} (m : P A) : Prop := forall s, evolves s (fst (m s)).

(** The stream of a direction is closed. *)
Definition send_closed (s : process) : bool :=
  match proc s with
  | Some p => is_closed (stdin p)
  | None => false
  end.

Definition recv_closed (s : process) : bool :=
  match proc s with
  | Some p => is_closed (stdout p)
  | None => false
  end.


Definition exit_notice (prog : pyval) (rc : Z) : log_record :=
  Info "Program %r stopped with exit code %d" [prog; VInt rc].

(** The flag is only ever set once a status is recorded. *)
Definition consistent (s : process) : Prop :=
  _stop_noticed s = true ->
  exists p rc, proc s = Some p /\ returncode p = Some rc.


(** The child has been reaped: a status is recorded. *)
Definition reaped (s : process) : Prop :=
  exists p rc, proc s = Some p /\ returncode p = Some rc.

(** *** Sample handles and answers *)

(** A handle right after [process('/bin/cat')]: three open streams, the
    child running. *)
Definition spawned : process :=
  mkprocess
    (Some (mkPopen (Some (mkfile false)) (Some (mkfile false))
                   (Some (mkfile false)) None 4242))
    false (pystr "/bin/cat") (Some 1%Z) [].


(** The child is running and silent; every call succeeds. *)
Definition quiet : world :=
  mkworld None [] (fun _ => SelReturns false) (fun _ => ReadNone)
          (fun _ => None) None None (-9)%Z.

(** The child has exited with status 0 and its output is at its end. *)
Definition exited : world :=
  mkworld (Some 0%Z) [] (fun _ => SelReturns true) (fun _ => ReadBytes [])
          (fun _ => None) None None 0%Z.



(** The child runs under another user: the signal is refused. *)
Definition EPERM : Z := 1.

Definition kill_refused : world :=
  mkworld None [] (fun _ => SelReturns false) (fun _ => ReadNone)
          (fun _ => None) None
          (Some (EPERM, "Operation not permitted")) (-9)%Z.

End Tube.

(** ** Argument and environment validation ([process._validate]) *)

Module Validate.

(** The validator touches no state: it returns or raises. *)
Inductive result (A : Type) : Type :=
| Ok (a : A)
| Err (e : exn).
Arguments Ok {A} a.
Arguments Err {A} e.

Definition rbind {A B} (m : result A) (k : A -> result B) : result B :=
  match m with
  | Ok a => k a
  | Err e => Err e
  end.

Notation "x <~ m ;; k" := (rbind m (fun x => k))
  (at level 61, m at next level, right associativity).
Notation "m ;;; k" := (rbind m (fun _ => k))
  (at level 61, right associativity).

(** Modelled from the spec: [log.error] belongs to [pwnlib.log], which is
    not part of the sources.  "All violations fail with a
    [ValidationError] carrying the offending value and index": the call
    raises, and the exception carries the format string and the values
    put into it. *)
Definition log_error {A} (fmt : string) (args : list pyval) : result A :=
  Err (PwnlibException fmt args).

(** [if cond: log.error(fmt % args)] *)
Definition check (cond : bool) (fmt : string) (args : list pyval) : result unit :=
  if cond then log_error fmt args else Ok tt.

(** [isinstance(v, (bytes, str))] *)
Definition isinstance_bytes_str (v : pyval) : bool :=
  match v with
  | VBytes _ | VStr _ => true
  | _ => false
  end.

(** [bool(v)] *)
Definition truth (v : pyval) : bool :=
  match v with
  | VNone => false
  | VInt n => negb (n =? 0)%Z
  | VBytes [] => false
  | VStr [] => false
  | VList [] => false
  | _ => true
  end.

Section Sequences.
Context {A : Type} (is_nul : A -> bool).

(** [null_byte in s] *)
Definition contains_nul (s : list A) : bool := existsb is_nul s.

(** [s.rstrip(null_byte)]: drops every NUL at the end. *)
Fixpoint rstrip (s : list A) : list A :=
  match s with
  | [] => []
  | c :: t =>
      match rstrip t with
      | [] => if is_nul c then [] else [c]
      | t' => c :: t'
      end
  end.
End Sequences.

Definition nul_byte (c : byte) : bool := Byte.eqb c x00.
Definition nul_char (c : ascii) : bool := Ascii.eqb c Ascii.zero.

(** [null_byte in arg[:-1]], with [null_byte] chosen by the type of
    [arg].  The last case is not reached by [_validate]: the [isinstance]
    tests have raised before. *)
Definition nulls_before_last (arg : pyval) : result bool :=
  match arg with
  | VBytes b => Ok (contains_nul nul_byte (removelast b))
  | VStr s => Ok (contains_nul nul_char (removelast s))
  | _ => Err TypeError
  end.

(** [arg.rstrip(null_byte)] *)
Definition rstrip_nul (arg : pyval) : result pyval :=
  match arg with
  | VBytes b => Ok (VBytes (rstrip nul_byte b))
  | VStr s => Ok (VStr (rstrip nul_char s))
  | _ => Err AttributeError
  end.

(** Equality of dictionary keys: [b'A' != 'A']. *)
Fixpoint list_eqb {A} (eqb : A -> A -> bool) (l1 l2 : list A) : bool :=
  match l1, l2 with
  | [], [] => true
  | a :: t1, b :: t2 => eqb a b && list_eqb eqb t1 t2
  | _, _ => false
  end.

Definition key_eqb (k1 k2 : pyval) : bool :=
  match k1, k2 with
  | VBytes a, VBytes b => list_eqb Byte.eqb a b
  | VStr a, VStr b => list_eqb Ascii.eqb a b
  | _, _ => false
  end.

(** A [dict] as its items in insertion order; [d[k] = v]. *)
Definition dict : Type := list (pyval * pyval).

Fixpoint dict_set (k v : pyval) (d : dict) : dict :=
  match d with
  | [] => [(k, v)]
  | (k0, v0) :: t =>
      if key_eqb k0 k then (k0, v) :: t else (k0, v0) :: dict_set k v t
  end.

(** The [for i, arg in enumerate(argv)] loop. *)
Definition validate_arg (i : nat) (arg : pyval) : result pyval :=
  bad <~ nulls_before_last arg ;;
  check bad "Inappropriate nulls in argv[%i]: %r" [VInt (Z.of_nat i); arg] ;;;
  rstrip_nul arg.

Fixpoint validate_argv (i : nat) (argv : list pyval) : result (list pyval) :=
  match argv with
  | [] => Ok []
  | arg :: rest =>
      arg' <~ validate_arg i arg ;;
      rest' <~ validate_argv (S i) rest ;;
      Ok (arg' :: rest')
  end.

(** The body of the [for k, v in env_vars] loop. *)
Definition validate_env_item (k v : pyval) : result (pyval * pyval) :=
  check (negb (isinstance_bytes_str k))
        "Environment keys must be bytes or strings: %r" [k] ;;;
  check (negb (isinstance_bytes_str v))
        "Environment values must be bytes or strings: %r=%r" [k; v] ;;;
  kbad <~ nulls_before_last k ;;
  check kbad "Inappropriate null byte in env key: %r" [k] ;;;
  vbad <~ nulls_before_last v ;;
  check vbad "Inappropriate null byte in env value: %r=%r" [k; v] ;;;
  k' <~ rstrip_nul k ;;
  v' <~ rstrip_nul v ;;
  Ok (k', v').

Fixpoint validate_env (env_vars : dict) (env : dict) : result dict :=
  match env_vars with
  | [] => Ok env
  | (k, v) :: rest =>
      kv <~ validate_env_item k v ;;
      validate_env rest (dict_set (fst kv) (snd kv) env)
  end.

Section WithSystem.
(** [pwnlib.util.misc.which], the file tests of [os.path] and [os.access],
    and the ambient environment. *)
Variable which : list ascii -> option (list ascii).
Variables path_exists path_isfile access_X_OK : list ascii -> bool.
Variable os_environ : dict.

Definition sep : ascii := "/"%char.
Definition curdir : pyval := pystr ".".

(** The elements [argv] is iterated over, after a lone string has been
    wrapped into a list. *)
Definition argv_items (argv : pyval) : result (list pyval) :=
  match argv with
  | VBytes _ | VStr _ => Ok [argv]
  | VList l => Ok l
  | _ => Err TypeError
  end.

(** [env or os.environ], as items. *)
Definition env_items (env : option dict) : dict :=
  match env with
  | Some (kv :: l) => kv :: l
  | _ => os_environ
  end.

Definition startswith_sep (s : list ascii) : bool :=
  match s with
  | c :: _ => Ascii.eqb c sep
  | [] => false
  end.

Definition which_found (s : list ascii) : bool :=
  match which s with
  | Some (_ :: _) => true
  | _ => false
  end.

(** [os.path.join(cwd, executable)] for an [executable] without
    separator. *)
Definition path_join (cwd : pyval) (executable : list ascii) : result (list ascii) :=
  match cwd with
  | VStr c =>
      match rev c with
      | [] => Ok executable
      | l :: _ => if Ascii.eqb l sep then Ok (c ++ executable)
                  else Ok (c ++ sep :: executable)
      end
  | _ => Err TypeError
  end.

Definition resolve_executable (cwd executable : pyval) (argv : list pyval)
  : result (list ascii) :=
  executable <~ (if negb (truth executable) then
                   check (negb (truth (VList argv)))
                         "Must specify argv or executable" [] ;;;
                   match argv with
                   | a :: _ => Ok a
                   | [] => Err (Exception_ "IndexError")
                   end
                 else Ok executable) ;;
  match executable with
  | VStr e =>
      if startswith_sep e then Ok e
      else if negb (existsb (Ascii.eqb sep) e) && which_found e then
        match which e with
        | Some e' => Ok e'
        | None => Err TypeError
        end
      else if negb (existsb (Ascii.eqb sep) e) then path_join cwd e
      else Ok e
  | VBytes _ => Err TypeError
  | _ => Err AttributeError
  end.

Definition _validate (cwd executable argv : pyval) (env : option dict)
  : result (pyval * list pyval * dict) :=
  let cwd := if truth cwd then cwd else curdir in
  items <~ argv_items argv ;;
  check (negb (forallb isinstance_bytes_str items))
        "argv must only contain bytes or strings: %r" [VList items] ;;;
  argv' <~ validate_argv 0 items ;;
  exe <~ resolve_executable cwd executable argv' ;;
  check (negb (path_exists exe)) "%r does not exist" [VStr exe] ;;;
  check (negb (path_isfile exe)) "%r is not a file" [VStr exe] ;;;
  check (negb (access_X_OK exe)) "%r is not marked as executable (+x)" [VStr exe] ;;;
  env' <~ validate_env (env_items env) [] ;;
  Ok (VStr exe, argv', env').

End WithSystem.

(** *** The words of the claims *)

(** A NUL at a position before the last one. *)
Definition nul_at_interior {A} (nul : A) (s : list A) : Prop :=
  exists i, (S i < List.length s)%nat /\ nth_error s i = Some nul.

Definition interior_nul (v : pyval) : Prop :=
  match v with
  | VBytes b => nul_at_interior x00 b
  | VStr s => nul_at_interior Ascii.zero s
  | _ => False
  end.

(** No NUL at all, in particular none at the end. *)
Definition nul_free (v : pyval) : Prop :=
  match v with
  | VBytes b => ~ In x00 b
  | VStr s => ~ In Ascii.zero s
  | _ => True
  end.

(** [r] is [arg] without the NULs at its end. *)
Definition stripped_of (arg r : pyval) : Prop :=
  match arg, r with
  | VBytes a, VBytes b => exists n, a = b ++ repeat x00 n
  | VStr a, VStr b => exists n, a = b ++ repeat Ascii.zero n
  | _, _ => False
  end.

Definition is_string (v : pyval) : Prop := isinstance_bytes_str v = true.

(** The errors that name the offending value. *)
Definition argv_error (i : nat) (arg : pyval) : exn :=
  PwnlibException "Inappropriate nulls in argv[%i]: %r" [VInt (Z.of_nat i); arg].



(** Every entry of the dictionary comes from an item of the input,
    stripped, and holds no NUL. *)
Definition from_items (input d : dict) : Prop :=
  forall k' v', In (k', v') d ->
    nul_free k' /\ nul_free v' /\
    exists k v, In (k, v) input /\ stripped_of k k' /\ stripped_of v v'.

(** *** Sample arguments *)

Definition no_which (_ : list ascii) : option (list ascii) := None.
Definition every_path (_ : list ascii) : bool := true.

Definition sample_argv : pyval :=
  VList [pystr "/bin/echo"; VBytes [x68; x69; x00]].

Definition sample_env : dict := [(pystr "HOME", VStr (list_ascii_of_string "/root" ++ [Ascii.zero]))].


End Validate.

(** ** The child pre-exec routine ([process._preexec_fn]) *)

Module PreExec.

Inductive rlimit : Type := RLIMIT_STACK | RLIMIT_CORE.

(** What the child asks of the system, in the order it asks. *)
Inductive action : Type :=
| Ttyname (fd : Z)
| Open (path : string) (flags : string)
| Close (fd : Z)
| Setsid
| Personality (persona : Z)
| Setrlimit (r : rlimit) (soft hard : Z)
| WriteFile (path : string) (data : string)
| Prctl (option arg2 : Z)
| LogException (msg : string)
| UserPreexecFn.

Definition C := M (list action).

(** The fields of the handle the routine reads; [os_linux] stands for
    [context.os == 'linux']. *)
Record settings : Type := mksettings {
  pty : option Z;
  aslr : bool;
  _setuid : option bool;
  os_linux : bool
}.

(** The answers the child gets. *)
Record child_world : Type := mkchild_world {
  ttyname_res : answer string;
  open_tty_before : answer Z;
  setsid_res : answer unit;
  open_tty_after : answer Z;
  open_child_res : answer Z;
  open_tty_final : answer Z;
  personality_res : answer unit;
  setrlimit_stack_res : answer unit;
  setrlimit_core_res : answer unit;
  coredump_filter_res : answer unit;
  prctl_res : answer unit;
  preexec_fn_res : answer unit
}.

Definition ADDR_NO_RANDOMIZE : Z := 0x0040000.
Definition PR_SET_NO_NEW_PRIVS : Z := 38.

(** A bare [except:] and [except Exception:] catch every exception. *)
Definition except_any {St A} (k : M St A) : exn -> option (M St A) :=
  fun _ => Some k.

(** Modelled from the spec: [log.exception] belongs to [pwnlib.log], which
    is not part of the sources.  "Failures here are logged, not fatal":
    the call records the message and returns. *)
Definition log_exception (msg : string) : C unit :=
  call (LogException msg) (Returns tt).

Definition _pty_make_controlling_tty (w : child_world) (tty_fd : Z) : C unit :=
  child_name <- call (Ttyname tty_fd) (ttyname_res w) ;;
  try_except
    (fd <- call (Open "/dev/tty" "O_RDWR|O_NOCTTY") (open_tty_before w) ;;
     if (fd >=? 0)%Z then call (Close fd) (Returns tt) else ret tt)
    (except_OSError (ret tt)) ;;
  call Setsid (setsid_res w) ;;
  try_except
    (fd <- call (Open "/dev/tty" "O_RDWR|O_NOCTTY") (open_tty_after w) ;;
     if (fd >=? 0)%Z then
       call (Close fd) (Returns tt) ;;
       raise (Exception_ "Failed to disconnect from controlling tty. It is still possible to open /dev/tty.")
     else ret tt)
    (except_OSError (ret tt)) ;;
  fd <- call (Open child_name "O_RDWR") (open_child_res w) ;;
  (if (fd <? 0)%Z then
     raise (Exception_ ("Could not open child pty, " ++ child_name)%string)
   else call (Close fd) (Returns tt)) ;;
  fd <- call (Open "/dev/tty" "O_WRONLY") (open_tty_final w) ;;
  if (fd <? 0)%Z then
    raise (Exception_ "Could not open controlling tty, /dev/tty")
  else call (Close fd) (Returns tt).

Definition is_True (o : option bool) : bool :=
  match o with Some true => true | _ => false end.

Definition is_False (o : option bool) : bool :=
  match o with Some false => true | _ => false end.

Definition _preexec_fn (self : settings) (w : child_world) : C unit :=
  match pty self with
  | Some fd => _pty_make_controlling_tty w fd
  | None => ret tt
  end ;;
  (if negb (aslr self) then
     try_except
       ((if os_linux self && negb (is_True (_setuid self)) then
           call (Personality ADDR_NO_RANDOMIZE) (personality_res w)
         else ret tt) ;;
        call (Setrlimit RLIMIT_STACK (-1) (-1)) (setrlimit_stack_res w))
       (except_any (log_exception "Could not disable ASLR"))
   else ret tt) ;;
  call (Setrlimit RLIMIT_CORE (-1) (-1)) (setrlimit_core_res w) ;;
  try_except
    (call (WriteFile "/proc/self/coredump_filter" "0xff") (coredump_filter_res w))
    (except_any (ret tt)) ;;
  (if is_False (_setuid self) then
     try_except
       (call (Prctl PR_SET_NO_NEW_PRIVS 1) (prctl_res w))
       (except_any (ret tt))
   else ret tt) ;;
  call UserPreexecFn (preexec_fn_res w).

(** *** Sample settings and answers *)

(** The defaults of [process(...)]: stdout on a pty (stream 1), ASLR as
    in the context, no assumption on setuid. *)
Definition default_settings : settings := mksettings (Some 1%Z) true None true.

(** Every call succeeds; after [setsid] the old terminal is gone. *)
Definition ENXIO : Z := 6.

Definition all_granted : child_world :=
  mkchild_world (Returns "/dev/pts/3") (Returns 3%Z) (Returns tt)
                (Fails (OSError ENXIO "No such device or address"))
                (Returns 3%Z) (Returns 3%Z)
                (Returns tt) (Returns tt) (Returns tt) (Returns tt)
                (Returns tt) (Returns tt).

(** The hard limit on core files is finite and the user may not raise
    it: [setrlimit(RLIMIT_CORE, (-1, -1))] raises. *)
Definition core_limit_refused : child_world :=
  mkchild_world (Returns "/dev/pts/3") (Returns 3%Z) (Returns tt)
                (Fails (OSError ENXIO "No such device or address"))
                (Returns 3%Z) (Returns 3%Z)
                (Returns tt) (Returns tt)
                (Fails (ValueError "not allowed to raise maximum limit"))
                (Returns tt) (Returns tt) (Returns tt).

(** [/proc/self/coredump_filter] cannot be written. *)
Definition EACCES : Z := 13.

Definition filter_unwritable : child_world :=
  mkchild_world (Returns "/dev/pts/3") (Returns 3%Z) (Returns tt)
                (Fails (OSError ENXIO "No such device or address"))
                (Returns 3%Z) (Returns 3%Z)
                (Returns tt) (Returns tt) (Returns tt)
                (Fails (OSError EACCES "Permission denied"))
                (Returns tt) (Returns tt).

End PreExec.

(** ** The launcher loop of [process.__init__] *)

Module Launcher.

(** What the launcher does that can be seen from outside: the creations
    it attempts and what it hands to the logger. *)
Inductive action : Type :=
| PopenCall (args : list pyval) (executable : pyval)
| LogError (msg : pyval).

Definition L := M (list action).

Section WithSystem.
(** [subprocess.Popen(args=..., executable=..., ...)]: the new process
    (its pid) or the exception of the failed creation.  The other
    arguments are the same for every candidate. *)
Variable Popen : list pyval -> pyval -> answer Z.
(** [get_qemu_user()] *)
Variable get_qemu_user : answer pyval.

(** [prefixes], after the [try: ... append ... except: pass]. *)
Definition prefixes (executable : pyval) : list (list pyval * pyval) :=
  ([], executable) ::
  match get_qemu_user with
  | Returns qemu => [([qemu], qemu)]
  | Fails _ => []
  end.

(** [str(prefixes)]: kept as the value itself. *)
Definition str_prefixes (l : list (list pyval * pyval)) : pyval :=
  VList (map (fun c => VList [VList (fst c); snd c]) l).

(** Modelled from the spec: [self.exception] is a method of the logger
    of the tube base class, not part of the sources.  "Exhausting all
    candidates without success re-raises the last fatal error": called
    in a handler, it logs the message and re-raises the exception that
    is being handled. *)
Definition self_exception {A} (handled : exn) (msg : pyval) : L A :=
  call (LogError msg) (Returns tt) ;;
  raise handled.

(** [raise exception], where [exception] may still be [None]. *)
Definition raise_stored {A} (exception : option exn) : L A :=
  match exception with
  | Some e => raise e
  | None => raise TypeError
  end.

(** The [for prefix, executable in prefixes: ... else: ...] loop.  The
    body returns the new process on [break], or the exception stored in
    [exception] when the loop goes on. *)
Fixpoint spawn_loop (all : list (list pyval * pyval)) (argv : list pyval)
         (todo : list (list pyval * pyval)) (exception : option exn) : L Z :=
  match todo with
  | [] =>
      try_except
        (raise_stored exception)
        (fun handled => Some (self_exception handled (str_prefixes all)))
  | (prefix, executable) :: rest =>
      r <- try_except
             (p <- call (PopenCall (prefix ++ argv) executable)
                        (Popen (prefix ++ argv) executable) ;;
              ret (inl p))
             (fun e =>
                match e with
                | OSError errno _ =>
                    Some (if negb (errno =? ENOEXEC)%Z then raise e
                          else ret (inr e))
                | _ => None
                end) ;;
      match r with
      | inl p => ret p
      | inr e => spawn_loop all argv rest (Some e)
      end
  end.

Definition spawn (executable : pyval) (argv : list pyval) : L Z :=
  spawn_loop (prefixes executable) argv (prefixes executable) None.

(** *** The words of the claim *)

(** The creation attempted with a candidate. *)
Definition attempt (argv : list pyval) (c : list pyval * pyval) : action :=
  PopenCall (fst c ++ argv) (snd c).

Definition creation (argv : list pyval) (c : list pyval * pyval) : answer Z :=
  Popen (fst c ++ argv) (snd c).

(** The creation fails with "exec format error". *)
Definition exec_format_failure (argv : list pyval) (c : list pyval * pyval) : Prop :=
  exists msg, creation argv c = Fails (OSError ENOEXEC msg).

(** What [exception] holds after the candidates [done] have failed. *)
Fixpoint stored_after (argv : list pyval) (done : list (list pyval * pyval))
         (exception : option exn) : option exn :=
  match done with
  | [] => exception
  | c :: rest =>
      stored_after argv rest
        (match creation argv c with
         | Fails e => Some e
         | Returns _ => exception
         end)
  end.

End WithSystem.

Definition is_exec_format_error (e : exn) : bool :=
  match e with
  | OSError errno _ => (errno =? ENOEXEC)%Z
  | _ => false
  end.

(** *** Sample system: a binary of a foreign architecture *)

Definition native : pyval := pystr "/tmp/arm-binary".
Definition qemu_arm : pyval := pystr "qemu-arm-static".

(** The native creation fails with [ENOEXEC]; under the emulator it
    succeeds. *)
Definition foreign_binary (args : list pyval) (executable : pyval) : answer Z :=
  match args with
  | VStr _ :: _ :: _ => Returns 4243%Z
  | _ => Fails (OSError ENOEXEC "Exec format error")
  end.

(** No emulator helps: every creation fails with [ENOEXEC]. *)
Definition unrunnable (args : list pyval) (executable : pyval) : answer Z :=
  match args with
  | _ :: _ :: _ => Fails (OSError ENOEXEC "Exec format error: under qemu")
  | _ => Fails (OSError ENOEXEC "Exec format error")
  end.

End Launcher.

(** ** Introspection: [process.leak] *)

Module Introspection.

(** ['needle' in s] for strings. *)
Fixpoint contains (needle s : string) : bool :=
  match s with
  | EmptyString => String.prefix needle EmptyString
  | String _ t => String.prefix needle s || contains needle t
  end.

Inductive action : Type :=
| OpenMem
| Seek (address : Z)
| Read (count : Z)
| CloseMem.

(** What the system answers for the process [self.pid]: the real path of
    [/proc/<pid>/exe], and the three calls on [/proc/<pid>/mem]. *)
Record mem_world : Type := mkmem_world {
  exe_realpath : string;
  open_res : answer unit;
  seek_res : Z -> answer unit;
  read_res : Z -> answer (list byte)
}.

(** Modelled from the spec: [log.error] belongs to [pwnlib.log], which is
    not part of the sources.  "Fails loudly": the call raises. *)
Definition log_error {A} (msg : string) : M (list action) A :=
  raise (PwnlibException msg []).

(** [with open(...) as mem: body]: the file is closed on the way out,
    also when [body] raises. *)
Definition with_mem {A} (w : mem_world) (body : M (list action) A) : M (list action) A :=
  call OpenMem (open_res w) ;;
  fun tr =>
    match body tr with
    | (tr', r) => (tr' ++ [CloseMem], r)
    end.

(** [x or None] for a [bytes] value. *)
Definition or_None (d : list byte) : option (list byte) :=
  match d with
  | [] => None
  | _ => Some d
  end.

Definition leak (w : mem_world) (address count : Z) : M (list action) (option (list byte)) :=
  (if contains "qemu-" (exe_realpath w) then
     log_error "Cannot use leaker on binaries under QEMU."
   else ret tt) ;;
  with_mem w
    (call (Seek address) (seek_res w address) ;;
     d <- call (Read count) (read_res w count) ;;
     ret (or_None d)).

(** *** Sample answers *)

Definition EIO : Z := 5.

(** Four bytes are asked for and one is read. *)
Definition short_read : mem_world :=
  mkmem_world "/usr/bin/cat" (Returns tt) (fun _ => Returns tt)
              (fun _ => Returns [x41]).

(** The address is not mapped: the read fails. *)
Definition unmapped : mem_world :=
  mkmem_world "/usr/bin/cat" (Returns tt) (fun _ => Returns tt)
              (fun _ => Fails (OSError EIO "Input/output error")).

(** The process is the emulator. *)
Definition emulated : mem_world :=
  mkmem_world "/usr/bin/qemu-arm-static" (Returns tt) (fun _ => Returns tt)
              (fun _ => Returns [x41; x42; x43; x44]).

End Introspection.

(** ** Relations between the handle before and after calls *)

Module TubeSpec.
Import Tube.

(** A computation whose effect on the handle stays within [R]. *)
Definition steps (R : process -> process -> Prop) {A} (m : P A) : Prop :=
  forall s, R s (fst (m s)).

(** At most one stop is reported, and none once [_stop_noticed] is set. *)
Definition reports_once (s s' : process) : Prop :=
  (_stop_noticed s = true -> _stop_noticed s' = true /\ log s' = log s) /\
  (_stop_noticed s = false ->
   (_stop_noticed s' = false /\ log s' = log s) \/
   (_stop_noticed s' = true /\ exists r, log s' = log s ++ [r])).

(** The flag stays backed by a recorded status. *)
Definition keeps_consistent (s s' : process) : Prop :=
  consistent s -> consistent s'.

(** An update of [self.proc] that loses no recorded status. *)
Definition keeps_status (f : Popen -> Popen) : Prop :=
  forall p rc, returncode p = Some rc -> exists rc', returncode (f p) = Some rc'.

End TubeSpec.

(** ** What a computation adds to its trace *)

Module TraceSpec.

(** Every action that [m] adds to the trace passes [ok]. *)
Definition adds_only {Act A} (ok : Act -> bool) (m : M (list Act) A) : Prop :=
  forall tr, exists more, fst (m tr) = tr ++ more /\ forallb ok more = true.

End TraceSpec.

Module PreExecSpec.
Import PreExec.

(** The two steps that switch off ASLR. *)
Definition aslr_action (a : action) : bool :=
  match a with
  | Personality _ => true
  | Setrlimit RLIMIT_STACK _ _ => true
  | _ => false
  end.

Definition personality_action (a : action) : bool :=
  match a with
  | Personality _ => true
  | _ => false
  end.

Definition prctl_action (a : action) : bool :=
  match a with
  | Prctl _ _ => true
  | _ => false
  end.

(** An answer that is a result or an [OSError]. *)
Definition returns_or_OSError {A} (r : answer A) : Prop :=
  match r with
  | Returns _ => True
  | Fails e => is_OSError e = true
  end.

(** [/dev/tty] cannot be opened: the open raises [OSError]. *)
Definition refused {A} (r : answer A) : Prop :=
  match r with
  | Returns _ => False
  | Fails e => is_OSError e = true
  end.

End PreExecSpec.

Module LauncherSpec.
Import Launcher.

Definition is_attempt (a : action) : bool :=
  match a with
  | PopenCall _ _ => true
  | LogError _ => false
  end.

(** The number of process creations attempted. *)
Definition attempts (tr : list action) : nat :=
  List.length (filter is_attempt tr).

End LauncherSpec.

(** ** The pty allocator ([process._handles] and its call in [__init__]) *)

Module Pty.

(** What can be passed for a stream: the marker [PTY] (an object of its
    own), an integer ([subprocess.PIPE] is -1, [subprocess.STDOUT] is -2,
    anything else a descriptor), or a file object. *)
Inductive handle : Type :=
| PTY
| Int (n : Z)
| FileObject (id : Z).

Definition PIPE : handle := Int (-1).
Definition STDOUT : handle := Int (-2).

(** [h is PTY] and [h is STDOUT] (small integers are shared objects). *)
Definition is_PTY (h : handle) : bool :=
  match h with PTY => true | _ => false end.

Definition is_STDOUT (h : handle) : bool :=
  match h with Int n => (n =? -2)%Z | _ => false end.

(** [handles.index(PTY) if PTY in handles else None] *)
Fixpoint index_PTY (i : Z) (handles : list handle) : option Z :=
  match handles with
  | [] => None
  | h :: rest => if is_PTY h then Some i else index_PTY (i + 1) rest
  end.

Inductive action : Type :=
| Openpty
| Setraw (fd : Z).

Record pty_world : Type := mkpty_world {
  openpty_res : answer (Z * Z);
  setraw_master_res : answer unit;
  setraw_slave_res : answer unit
}.

(** The five values [_handles] returns. *)
Record wiring : Type := mkwiring {
  w_stdin : handle;
  w_stdout : handle;
  w_stderr : handle;
  master : option Z;
  slave : option Z
}.

Definition _handles (pty : option Z) (raw : bool) (w : pty_world)
           (stdin stdout stderr : handle) : M (list action) wiring :=
  match pty with
  | Some _ =>
      ms <- call Openpty (openpty_res w) ;;
      (if raw then
         call (Setraw (fst ms)) (setraw_master_res w) ;;
         call (Setraw (snd ms)) (setraw_slave_res w)
       else ret tt) ;;
      ret (mkwiring (if is_PTY stdin then Int (snd ms) else stdin)
                    (if is_PTY stdout then Int (snd ms) else stdout)
                    (if is_PTY stderr then Int (snd ms) else stderr)
                    (Some (fst ms)) (Some (snd ms)))
  | None => ret (mkwiring stdin stdout stderr None None)
  end.

(** The lines of [__init__] from [if stderr is STDOUT] to the call of
    [_handles]: the value of [self.pty] and the wiring. *)
Definition allocate (raw : bool) (w : pty_world) (stdin stdout stderr : handle)
  : M (list action) (option Z * wiring) :=
  let stderr := if is_STDOUT stderr then stdout else stderr in
  let pty := index_PTY 0 [stdin; stdout; stderr] in
  r <- _handles pty raw w stdin stdout stderr ;;
  ret (pty, r).

(** The slot a stream ends up with. *)
Definition wired (slave : Z) (h : handle) : handle :=
  if is_PTY h then Int slave else h.

(** A terminal pair is at hand and may be put into raw mode. *)
Definition pty_granted (m s : Z) : pty_world :=
  mkpty_world (Returns (m, s)) (Returns tt) (Returns tt).

End Pty.

(** ** The map of loaded libraries ([process.libs]) *)

Module Libs.

(** A [dict] from paths to addresses, as its items in insertion
    order. *)
Definition maps : Type := list (string * Z).

Fixpoint lookup (k : string) (m : maps) : option Z :=
  match m with
  | [] => None
  | (k0, a) :: rest => if String.eqb k0 k then Some a else lookup k rest
  end.

(** [m[k] = a] *)
Fixpoint set (k : string) (a : Z) (m : maps) : maps :=
  match m with
  | [] => [(k, a)]
  | (k0, a0) :: rest =>
      if String.eqb k0 k then (k0, a) :: rest else (k0, a0) :: set k a rest
  end.

(** [line[line.index('/'):]], for a line with a ['/'] in it. *)
Fixpoint from_slash (line : string) : option string :=
  match line with
  | EmptyString => None
  | String c rest => if Ascii.eqb c "/"%char then Some line else from_slash rest
  end.

(** [line.endswith(path)] *)
Fixpoint endswith (line path : string) : bool :=
  if String.eqb line path then true
  else match line with
       | EmptyString => false
       | String _ rest => endswith rest path
       end.

(** [line.split('-')[0]] *)
Fixpoint before_dash (line : string) : string :=
  match line with
  | EmptyString => EmptyString
  | String c rest =>
      if Ascii.eqb c "-"%char then EmptyString else String c (before_dash rest)
  end.

Section WithSystem.
(** [os.path.realpath] and [int(text, 16)]. *)
Variable realpath : string -> string.
Variable int16 : string -> answer Z.

(** The first loop: every file of the listing gets an entry. *)
Definition add_line (m : maps) (line : string) : maps :=
  match from_slash line with
  | None => m
  | Some path =>
      match lookup (realpath path) m with
      | Some _ => m
      | None => set (realpath path) 0%Z m
      end
  end.

Definition add_loaded (m : maps) (lines : list string) : maps :=
  fold_left add_line lines m.

(** The line a library is found on: the first that ends with its real
    path. *)
Definition line_of (lines : list string) (lib : string) : option string :=
  find (fun line => endswith line (realpath lib)) lines.

(** The second loop, over the keys the dictionary has when it starts. *)
Fixpoint locate (lines : list string) (keys : list string) (m : maps)
  : answer maps :=
  match keys with
  | [] => Returns m
  | lib :: rest =>
      match line_of lines lib with
      | None => locate lines rest m
      | Some line =>
          match int16 (before_dash line) with
          | Returns address => locate lines rest (set lib address m)
          | Fails e => Fails e
          end
      end
  end.

(** [libs()], from the map [parse_ldd_output] has given and the lines of
    [/proc/<pid>/maps], or the exception of reading it. *)
Definition libs (ldd : maps) (maps_raw : answer (list string)) : answer maps :=
  match maps_raw with
  | Fails e => if is_OSError e then Returns ldd else Fails e
  | Returns lines =>
      let m := add_loaded ldd lines in
      locate lines (map fst m) m
  end.

(** The path a line of the listing names. *)
Definition listed (lines : list string) (path : string) : bool :=
  existsb (fun line =>
             match from_slash line with
             | Some p => String.eqb (realpath p) path
             | None => false
             end) lines.

End WithSystem.

(** *** A sample listing *)

Definition same_path (p : string) : string := p.

Definition hex_of_sample (text : string) : answer Z :=
  if String.eqb text "7f0000" then Returns 8323072%Z
  else if String.eqb text "00400000" then Returns 4194304%Z
  else Fails (ValueError "invalid literal for int() with base 16").

Definition sample_ldd : maps := [("/lib/libc.so.6", 4096%Z)].

Definition sample_lines : list string :=
  ["00400000-00401000 r-xp 00000000 08:01 1 /bin/cat";
   "7f0000-7f1000 r-xp 00000000 08:01 2 /lib/libc.so.6";
   "7ffd0000-7ffd1000 rw-p 00000000 00:00 0 [stack]"].

End Libs.

(** * Properties *)

(** ** The raw tube primitives and the lifecycle *)

Module TubeFacts.
Import Tube.

(** *** The handle only moves forward *)

Lemma Popen_evolves_refl p : Popen_evolves p p.
Proof. repeat split; auto. Qed.

Lemma Popen_evolves_trans p q r :
  Popen_evolves p q -> Popen_evolves q r -> Popen_evolves p r.
Proof.
  intros (A1 & A2 & A3) (B1 & B2 & B3). repeat split; auto.
Qed.

Lemma evolves_refl s : evolves s s.
Proof.
  split; auto. intros p Hp. exists p. split; auto using Popen_evolves_refl.
Qed.

Lemma evolves_trans s t u : evolves s t -> evolves t u -> evolves s u.
Proof.
  intros [A1 A2] [B1 B2]. split; auto.
  intros p Hp. destruct (A1 p Hp) as (q & Hq & Hpq).
  destruct (B1 q Hq) as (r & Hr & Hqr).
  exists r. split; eauto using Popen_evolves_trans.
Qed.

Lemma mono_ret {A} (a : A) : mono (ret a).
Proof. intro s. apply evolves_refl. Qed.

Lemma mono_raise {A} e : mono (@raise process A e).
Proof. intro s. apply evolves_refl. Qed.

Lemma mono_hang {A} : mono (@hang process A).
Proof. intro s. apply evolves_refl. Qed.

Lemma mono_gets {A} (f : process -> A) : mono (gets f).
Proof. intro s. apply evolves_refl. Qed.

Lemma mono_attr {A} (o : option A) : mono (@attr process A o).
Proof. destruct o; [apply mono_ret | apply mono_raise]. Qed.

Lemma mono_get_proc : mono get_proc.
Proof. intro s. unfold get_proc. apply mono_attr. Qed.

Lemma mono_bind {A B} (m : P A) (k : A -> P B) :
  mono m -> (forall a, mono (k a)) -> mono (bind m k).
Proof.
  intros Hm Hk s. unfold bind. specialize (Hm s).
  destruct (m s) as [s' [a | e |]]; simpl in *; auto.
  eapply evolves_trans; [exact Hm | apply Hk].
Qed.

Lemma mono_try_except {A} (m : P A) h :
  mono m -> (forall e k, h e = Some k -> mono k) -> mono (try_except m h).
Proof.
  intros Hm Hh s. unfold try_except. specialize (Hm s).
  destruct (m s) as [s' [a | e |]]; simpl in *; auto.
  destruct (h e) as [k |] eqn:E; simpl; auto.
  eapply evolves_trans; [exact Hm | eapply Hh; eauto].
Qed.

Lemma mono_except_OSError {A} (m k : P A) :
  mono m -> mono k -> mono (try_except m (except_OSError k)).
Proof.
  intros Hm Hk. apply mono_try_except; auto.
  intros e k'. unfold except_OSError.
  destruct (is_OSError e); intro E; inversion E; subst; assumption.
Qed.

Lemma mono_modify_proc f :
  (forall p, Popen_evolves p (f p)) -> mono (modify_proc f).
Proof.
  intros Hf s. unfold modify_proc.
  destruct (proc s) as [p |] eqn:E; simpl; [| apply evolves_refl].
  split; simpl; auto.
  intros q Hq. rewrite E in Hq. inversion Hq; subst. eauto.
Qed.

Lemma mono_info fmt args : mono (info fmt args).
Proof.
  intro s. split; simpl; auto.
  intros p Hp. exists p. split; auto using Popen_evolves_refl.
Qed.

Lemma mono_notice : mono (modify (set_stop_noticed true)).
Proof.
  intro s. split; simpl; auto.
  intros p Hp. exists p. split; auto using Popen_evolves_refl.
Qed.

Lemma record_status_evolves st p : Popen_evolves p (record_status st p).
Proof.
  unfold record_status. destruct (returncode p) eqn:E.
  - apply Popen_evolves_refl.
  - repeat split; simpl; auto. congruence.
Qed.

Lemma close_fd_closed f : is_closed f = true -> is_closed (close_fd f) = true.
Proof. destruct f; simpl; auto. Qed.

Create HintDb mono discriminated.
#[local] Hint Resolve mono_ret mono_raise mono_hang mono_gets mono_attr
  mono_get_proc mono_info mono_notice record_status_evolves close_fd_closed
  : mono.

Ltac mono_step :=
  match goal with
  | |- mono (bind _ _) => apply mono_bind; [| intro]
  | |- mono (try_except _ (except_OSError _)) => apply mono_except_OSError
  | |- mono (modify_proc _) =>
      apply mono_modify_proc; intro;
      first [ solve [auto with mono]
            | repeat split; simpl; auto with mono ]
  | |- mono (if ?b then _ else _) => destruct b
  | |- mono (match ?x with _ => _ end) => destruct x
  | |- mono _ => solve [auto with mono]
  end.

Ltac mono_tac := repeat mono_step.

Lemma mono_Popen_poll w : mono (Popen_poll w).
Proof. unfold Popen_poll. mono_tac. Qed.

Lemma mono_poll_now w : mono (poll_now w).
Proof. unfold poll_now. pose proof (mono_Popen_poll w). mono_tac. Qed.

Lemma mono_connected_raw w d : mono (connected_raw w d).
Proof. unfold connected_raw. pose proof (mono_poll_now w). mono_tac. Qed.

Lemma mono_wait_for_close_loop w obs : mono (wait_for_close_loop w obs).
Proof.
  induction obs as [| o rest IH]; simpl.
  - pose proof (mono_connected_raw w "any"). mono_tac.
  - pose proof (mono_connected_raw (with_status w o) "any"). mono_tac.
Qed.

Lemma mono_poll w block : mono (poll w block).
Proof.
  unfold poll, wait_for_close.
  pose proof (mono_wait_for_close_loop w (wait_obs w)).
  pose proof (mono_poll_now w). mono_tac.
Qed.

Lemma mono_can_recv_raw w t : mono (can_recv_raw w t).
Proof.
  unfold can_recv_raw, select_.
  pose proof (mono_connected_raw w "recv"). mono_tac.
Qed.

Lemma mono_close w : mono (close w).
Proof.
  unfold close, Popen_kill, Popen_wait.
  pose proof (mono_poll_now w). mono_tac.
Qed.

Lemma mono_shutdown_raw w d : mono (shutdown_raw w d).
Proof. unfold shutdown_raw. pose proof (mono_close w). mono_tac. Qed.

Lemma mono_recv_raw w numb : mono (recv_raw w numb).
Proof.
  unfold recv_raw, shutdown, file_read.
  pose proof (mono_poll w false). pose proof (mono_connected_raw w "recv").
  pose proof (mono_shutdown_raw w "recv").
  assert (forall t, mono (can_recv_raw w t)) by (intro; apply mono_can_recv_raw).
  mono_tac.
Qed.

Lemma mono_send_raw w data : mono (send_raw w data).
Proof.
  unfold send_raw, file_write, file_flush.
  pose proof (mono_poll w false). pose proof (mono_connected_raw w "send").
  mono_tac.
Qed.

Lemma run_method_evolves w m s : evolves s (run_method w m s).
Proof.
  destruct m; simpl.
  - apply mono_poll.
  - apply mono_recv_raw.
  - apply mono_send_raw.
  - apply evolves_refl.
  - apply mono_can_recv_raw.
  - apply mono_connected_raw.
  - apply mono_close.
  - apply mono_close.
  - apply mono_shutdown_raw.
Qed.

Lemma run_evolves calls : forall s, evolves s (run calls s).
Proof.
  induction calls as [| [w m] rest IH]; intro s; simpl.
  - apply evolves_refl.
  - eapply evolves_trans; [apply run_method_evolves | apply IH].
Qed.

(** *** Running the monad *)

Lemma bind_Ret {St A B} (m : M St A) (k : A -> M St B) s s' a :
  m s = (s', Ret a) -> bind m k s = k a s'.
Proof. intro E. unfold bind. rewrite E. reflexivity. Qed.



(** *** [poll] *)

Lemma poll_now_cases w s p :
  proc s = Some p ->
  let p1 := record_status (child_status w) p in
  poll_now w s =
    match returncode p1 with
    | Some rc =>
        if _stop_noticed s then (set_proc p1 s, Ret (Some rc))
        else (add_log (exit_notice (program s) rc)
                      (set_stop_noticed true (set_proc p1 s)),
              Ret (Some rc))
    | None => (set_proc p1 s, Ret None)
    end.
Proof.
  intros Hp p1. unfold poll_now, Popen_poll, modify_proc, bind at 1.
  rewrite Hp. fold p1. unfold bind, get_proc, gets; simpl.
  destruct (returncode p1) as [rc |] eqn:E; simpl.
  - destruct (_stop_noticed s); simpl; rewrite ?E; reflexivity.
  - rewrite E. reflexivity.
Qed.











(** *** Shutdown of a direction *)

Lemma evolves_send_closed s s' :
  evolves s s' -> send_closed s = true -> send_closed s' = true.
Proof.
  intros [E _]. unfold send_closed.
  destruct (proc s) as [p |] eqn:Hp; [| discriminate].
  destruct (E p eq_refl) as (p' & Hp' & H & _). rewrite Hp'. exact H.
Qed.

Lemma evolves_recv_closed s s' :
  evolves s s' -> recv_closed s = true -> recv_closed s' = true.
Proof.
  intros [E _]. unfold recv_closed.
  destruct (proc s) as [p |] eqn:Hp; [| discriminate].
  destruct (E p eq_refl) as (p' & Hp' & _ & H & _). rewrite Hp'. exact H.
Qed.

(** On a spawned handle [poll()] returns. *)
Lemma poll_now_returns w s p :
  proc s = Some p -> exists s' rc, poll_now w s = (s', Ret rc).
Proof.
  intro Hp. rewrite (poll_now_cases w s p Hp). simpl.
  destruct (returncode (record_status (child_status w) p));
    [destruct (_stop_noticed s) |]; eauto.
Qed.

Lemma connected_send_closed w s :
  send_closed s = true -> connected_raw w "send" s = (s, Ret (Some false)).
Proof.
  unfold send_closed, connected_raw, get_proc, bind. simpl.
  destruct (proc s) as [p |]; [| discriminate]. simpl.
  destruct (stdin p) as [f |]; simpl; [| discriminate].
  intros ->. reflexivity.
Qed.

Lemma connected_recv_closed w s :
  recv_closed s = true -> connected_raw w "recv" s = (s, Ret (Some false)).
Proof.
  unfold recv_closed, connected_raw, get_proc, bind. simpl.
  destruct (proc s) as [p |]; [| discriminate]. simpl.
  destruct (stdout p) as [f |]; simpl; [| discriminate].
  intros ->. reflexivity.
Qed.

Lemma send_raw_closed w data s :
  send_closed s = true -> snd (send_raw w data s) = Raise EOFError.
Proof.
  intro H. unfold send_raw, poll.
  assert (Hp : exists p, proc s = Some p).
  { unfold send_closed in H. destruct (proc s); [eauto | discriminate]. }
  destruct Hp as [p Hp].
  destruct (poll_now_returns w s p Hp) as (s' & rc & E).
  assert (H' : send_closed s' = true).
  { pose proof (mono_poll_now w s) as Hm. rewrite E in Hm.
    eapply evolves_send_closed; eauto. }
  erewrite bind_Ret by (erewrite bind_Ret by reflexivity; exact E).
  erewrite bind_Ret by (apply connected_send_closed; exact H').
  reflexivity.
Qed.

Lemma recv_raw_closed w numb s :
  recv_closed s = true -> snd (recv_raw w numb s) = Raise EOFError.
Proof.
  intro H. unfold recv_raw, poll.
  assert (Hp : exists p, proc s = Some p).
  { unfold recv_closed in H. destruct (proc s); [eauto | discriminate]. }
  destruct Hp as [p Hp].
  destruct (poll_now_returns w s p Hp) as (s' & rc & E).
  assert (H' : recv_closed s' = true).
  { pose proof (mono_poll_now w s) as Hm. rewrite E in Hm.
    eapply evolves_recv_closed; eauto. }
  erewrite bind_Ret by (erewrite bind_Ret by reflexivity; exact E).
  erewrite bind_Ret by (apply connected_recv_closed; exact H').
  reflexivity.
Qed.

(** The part of [shutdown_raw] after the two [close()] calls. *)
Lemma mono_shutdown_tail w :
  mono (p <- get_proc ;;
        fi <- attr (stdin p) ;;
        fo <- attr (stdout p) ;;
        if negb (existsb negb [closed fi; closed fo]) then close w else ret tt).
Proof. pose proof (mono_close w). mono_tac. Qed.

Lemma shutdown_send_closes w s s1 r :
  shutdown_raw w "send" s = (s1, r) -> r <> Raise AttributeError ->
  send_closed s1 = true.
Proof.
  unfold shutdown_raw. cbn [String.eqb Ascii.eqb Bool.eqb].
  unfold bind at 1, bind at 1, get_proc, attr.
  destruct (proc s) as [p |] eqn:Hp; simpl;
    [| intros H; inversion H; congruence].
  unfold bind at 1.
  destruct (stdin p) as [f |] eqn:Hf; simpl;
    [| intros H; inversion H; congruence].
  unfold modify_proc. rewrite Hp.
  intros H _. erewrite bind_Ret in H by reflexivity.
  match type of H with
  | ?m ?s0 = _ =>
      pose proof (mono_shutdown_tail w s0) as Hm; change (m s0) with (m s0) in Hm
  end.
  match type of Hm with
  | evolves ?a (fst ?b) =>
      match type of H with
      | ?c = _ => change b with c in Hm
      end
  end.
  rewrite H in Hm. eapply evolves_send_closed; [exact Hm | reflexivity].
Qed.

Lemma shutdown_recv_closes w s s1 r :
  shutdown_raw w "recv" s = (s1, r) -> r <> Raise AttributeError ->
  recv_closed s1 = true.
Proof.
  unfold shutdown_raw. cbn [String.eqb Ascii.eqb Bool.eqb].
  erewrite bind_Ret by reflexivity.
  unfold bind at 1, bind at 1, get_proc, attr.
  destruct (proc s) as [p |] eqn:Hp; simpl;
    [| intros H; inversion H; congruence].
  unfold bind at 1.
  destruct (stdout p) as [f |] eqn:Hf; simpl;
    [| intros H; inversion H; congruence].
  unfold modify_proc. rewrite Hp.
  intros H _.
  match type of H with
  | ?m ?s0 = _ => pose proof (mono_shutdown_tail w s0) as Hm
  end.
  match type of Hm with
  | evolves ?a (fst ?b) =>
      match type of H with
      | ?c = _ => change b with c in Hm
      end
  end.
  rewrite H in Hm. eapply evolves_recv_closed; [exact Hm | reflexivity].
Qed.

(** C3: once [shutdown_raw("send")] has closed stdin, every later
    [send_raw] raises [EOFError], and once [shutdown_raw("recv")] has closed
    stdout, every later [recv_raw] raises [EOFError], whatever calls were
    made on the handle in between and whatever the system answers. *)
Theorem shutdown_then_EndOfFile w s s1 :
  (shutdown_raw w "send" s = (s1, Ret tt) ->
   forall calls w' data,
     snd (send_raw w' data (run calls s1)) = Raise EOFError) /\
  (shutdown_raw w "recv" s = (s1, Ret tt) ->
   forall calls w' numb,
     snd (recv_raw w' numb (run calls s1)) = Raise EOFError).
Proof.
  split; intros H calls w' x.
  - apply send_raw_closed.
    eapply evolves_send_closed; [apply run_evolves |].
    eapply shutdown_send_closes; [exact H | discriminate].
  - apply recv_raw_closed.
    eapply evolves_recv_closed; [apply run_evolves |].
    eapply shutdown_recv_closes; [exact H | discriminate].
Qed.

Lemma shutdown_then_EndOfFile_witness :
  (shutdown_raw quiet "send" spawned
     = (fst (shutdown_raw quiet "send" spawned), Ret tt) /\
   snd (send_raw quiet [x68; x69]
          (run [(quiet, RecvRaw 16%Z); (exited, Poll false)]
               (fst (shutdown_raw quiet "send" spawned))))
     = Raise EOFError) /\
  (shutdown_raw quiet "recv" spawned
     = (fst (shutdown_raw quiet "recv" spawned), Ret tt) /\
   snd (recv_raw exited 16%Z
          (run [(quiet, SendRaw [x68; x69]); (quiet, CanRecvRaw None)]
               (fst (shutdown_raw quiet "recv" spawned))))
     = Raise EOFError).
Proof.
  split; (split; [reflexivity |]).
  - apply (proj1 (shutdown_then_EndOfFile quiet spawned
                    (fst (shutdown_raw quiet "send" spawned)))).
    reflexivity.
  - apply (proj2 (shutdown_then_EndOfFile quiet spawned
                    (fst (shutdown_raw quiet "recv" spawned)))).
    reflexivity.
Defined.


(** *** Case analysis on a handle and on the answers of the system *)

Ltac break_handle s w :=
  destruct s as [[[fi fo fe rcode pd] |] n exe t l];
  destruct w as [cs wo sel rd wr fl kr ws];
  try destruct rcode; try destruct cs; try destruct n;
  try destruct kr as [[en msg] |];
  try destruct fi as [[ci] |]; try destruct fo as [[co] |];
  try destruct fe as [[ce] |].

(** *** [recv_raw] and [can_recv_raw] *)




(** C7 (amended): on a recv stream that is already closed [can_recv_raw]
    returns [False] and leaves the handle alone; it raises [EOFError] when
    the stream still counts as open and [select] itself raises
    [OSError]. *)
Theorem can_recv_raw_closed_or_failing w t s :
  (recv_closed s = true -> can_recv_raw w t s = (s, Ret (Some false))) /\
  (forall p f errno msg,
      proc s = Some p -> stdout p = Some f -> closed f = false ->
      select_res w t = SelRaises (OSError errno msg) ->
      can_recv_raw w t s = (s, Raise EOFError)).
Proof.
  split.
  - intro H. unfold can_recv_raw.
    erewrite bind_Ret by (apply connected_recv_closed; exact H). reflexivity.
  - intros p f errno msg Hp Hf Hc Hsel. unfold can_recv_raw.
    assert (E : connected_raw w "recv" s = (s, Ret (Some true))).
    { unfold connected_raw, get_proc, bind. simpl. rewrite Hp. simpl.
      rewrite Hf. simpl. rewrite Hc. reflexivity. }
    erewrite bind_Ret by exact E. simpl.
    unfold try_except, bind, get_proc, select_. rewrite Hp. simpl.
    rewrite Hf. simpl. rewrite Hc, Hsel. reflexivity.
Qed.

Lemma can_recv_raw_closed_or_failing_witness :
  can_recv_raw quiet (Some 0%Z) (fst (shutdown_raw quiet "recv" spawned))
    = (fst (shutdown_raw quiet "recv" spawned), Ret (Some false)).
Proof.
  apply (proj1 (can_recv_raw_closed_or_failing quiet (Some 0%Z)
                  (fst (shutdown_raw quiet "recv" spawned)))).
  reflexivity.
Defined.

(** C7 (counterexample): after [shutdown_raw("recv")] the stream is
    closed, and [can_recv_raw] returns [False] instead of raising. *)
Lemma can_recv_raw_closed_returns_False :
  recv_closed (fst (shutdown_raw quiet "recv" spawned)) = true /\
  snd (can_recv_raw quiet (Some 0%Z) (fst (shutdown_raw quiet "recv" spawned)))
    = Ret (Some false) /\
  snd (can_recv_raw quiet (Some 0%Z) (fst (shutdown_raw quiet "recv" spawned)))
    <> Raise EOFError.
Proof. repeat split. discriminate. Qed.

(** *** [connected_raw] *)

(** C10: for a direction other than "any", "send" and "recv",
    [connected_raw] returns [None]; it does not raise and does not touch
    the handle. *)
Theorem connected_raw_unknown_direction w direction s :
  direction <> "any" -> direction <> "send" -> direction <> "recv" ->
  connected_raw w direction s = (s, Ret None).
Proof.
  intros Ha Hs Hr. unfold connected_raw.
  apply String.eqb_neq in Ha, Hs, Hr. rewrite Ha, Hs, Hr. reflexivity.
Qed.

Lemma connected_raw_unknown_direction_witness :
  connected_raw quiet "both" spawned = (spawned, Ret None) /\
  truthy None = false.
Proof.
  split; [| reflexivity].
  apply connected_raw_unknown_direction; discriminate.
Defined.

(** *** [close] *)



Lemma close_returns w s : exists s', close w s = (s', Ret tt).
Proof. break_handle s w; eexists; reflexivity. Qed.








End TubeFacts.

(** ** Validation of argv and of the environment *)

Module ValidateFacts.
Import Validate.

Section Stripping.
Context {A : Type} (is_nul : A -> bool) (nul : A).
Hypothesis is_nul_spec : forall c, is_nul c = true <-> c = nul.

Lemma contains_nul_In s : contains_nul is_nul s = true <-> In nul s.
Proof.
  unfold contains_nul. rewrite existsb_exists. split.
  - intros (c & Hin & Hc). apply is_nul_spec in Hc. subst. exact Hin.
  - intro Hin. exists nul. split; [exact Hin | apply is_nul_spec; reflexivity].
Qed.

Lemma rstrip_app s : exists n, s = rstrip is_nul s ++ repeat nul n.
Proof.
  induction s as [| c t [n IH]]; simpl.
  - exists 0%nat. reflexivity.
  - destruct (rstrip is_nul t) as [| d t'] eqn:E.
    + destruct (is_nul c) eqn:Hc.
      * apply is_nul_spec in Hc. subst c. exists (S n). simpl.
        simpl in IH. congruence.
      * exists n. simpl in *. congruence.
    + exists n. simpl in *. congruence.
Qed.

Lemma In_removelast (s : list A) c : In c (removelast s) -> In c s.
Proof.
  induction s as [| d t IH]; simpl; auto.
  destruct t; simpl in *; tauto.
Qed.

(** When no NUL stands before the last position, nothing of it is left
    after stripping. *)
Lemma rstrip_nul_free s :
  ~ In nul (removelast s) -> ~ In nul (rstrip is_nul s).
Proof.
  induction s as [| c t IH]; simpl; auto.
  destruct t as [| d t2].
  - simpl. intros _. destruct (is_nul c) eqn:Hc; simpl; auto.
    intros [H | []]. subst. 
    assert (is_nul nul = true) by (apply is_nul_spec; reflexivity). congruence.
  - intros Hn. 
    assert (Hc : c <> nul) by (intro; apply Hn; left; assumption).
    assert (Ht : ~ In nul (rstrip is_nul (d :: t2))).
    { apply IH. intro H. apply Hn. right. exact H. }
    destruct (rstrip is_nul (d :: t2)) as [| e t'] eqn:E.
    + destruct (is_nul c); simpl; auto. intros [H | []]. auto.
    + intros [H | H]; auto.
Qed.

Lemma nth_error_removelast (s : list A) i :
  (S i < List.length s)%nat -> nth_error (removelast s) i = nth_error s i.
Proof.
  revert i. induction s as [| c t IH]; intros i Hi; simpl in *; [lia |].
  destruct t as [| d t2]; simpl in *; [lia |].
  destruct i as [| i]; simpl; auto.
  apply (IH i). lia.
Qed.

Lemma length_removelast (s : list A) :
  List.length (removelast s) = pred (List.length s).
Proof.
  induction s as [| c t IH]; simpl; auto.
  destruct t; simpl in *; auto.
Qed.

Lemma interior_In s : nul_at_interior nul s <-> In nul (removelast s).
Proof.
  split.
  - intros (i & Hi & Hn). rewrite <- nth_error_removelast in Hn by exact Hi.
    eapply nth_error_In; eauto.
  - intro Hin. apply In_nth_error in Hin. destruct Hin as [i Hi].
    assert (Hlt : (i < List.length (removelast s))%nat).
    { apply nth_error_Some. congruence. }
    rewrite length_removelast in Hlt.
    exists i. split; [lia |].
    rewrite <- nth_error_removelast by lia. exact Hi.
Qed.
End Stripping.

Lemma nul_byte_spec c : nul_byte c = true <-> c = x00.
Proof.
  unfold nul_byte. split.
  - apply Byte.byte_dec_bl.
  - apply Byte.byte_dec_lb.
Qed.

Lemma nul_char_spec c : nul_char c = true <-> c = Ascii.zero.
Proof. unfold nul_char. apply Ascii.eqb_eq. Qed.

(** The test of the source is the test of the claim. *)
Lemma nulls_before_last_spec arg :
  is_string arg ->
  exists b, nulls_before_last arg = Ok b /\ (b = true <-> interior_nul arg).
Proof.
  destruct arg; try discriminate; intros _; simpl; eexists; (split; [reflexivity |]).
  - rewrite (contains_nul_In _ _ nul_byte_spec).
    symmetry. apply interior_In.
  - rewrite (contains_nul_In _ _ nul_char_spec).
    symmetry. apply interior_In.
Qed.

Lemma interior_nul_string arg : interior_nul arg -> is_string arg.
Proof. destruct arg; simpl; try contradiction; reflexivity. Qed.

Lemma rstrip_nul_spec arg :
  is_string arg -> ~ interior_nul arg ->
  exists r, rstrip_nul arg = Ok r /\ stripped_of arg r /\ nul_free r.
Proof.
  destruct arg; try discriminate; intros _ Hn; simpl in *;
    eexists; (split; [reflexivity |]); split.
  - apply (rstrip_app _ _ nul_byte_spec).
  - apply (rstrip_nul_free _ _ nul_byte_spec).
    intro H. apply Hn. apply interior_In. exact H.
  - apply (rstrip_app _ _ nul_char_spec).
  - apply (rstrip_nul_free _ _ nul_char_spec).
    intro H. apply Hn. apply interior_In. exact H.
Qed.

Lemma validate_arg_bad i arg :
  interior_nul arg -> validate_arg i arg = Err (argv_error i arg).
Proof.
  intro H. unfold validate_arg.
  destruct (nulls_before_last_spec arg (interior_nul_string arg H)) as (b & E & Hb).
  rewrite E. simpl. apply Hb in H. subst b. reflexivity.
Qed.

Lemma validate_arg_good i arg :
  is_string arg -> ~ interior_nul arg ->
  exists r, validate_arg i arg = Ok r /\ stripped_of arg r /\ nul_free r.
Proof.
  intros Hs Hn. unfold validate_arg.
  destruct (nulls_before_last_spec arg Hs) as (b & E & Hb).
  rewrite E. simpl. destruct b; [exfalso; apply Hn, Hb; reflexivity |].
  simpl. apply rstrip_nul_spec; assumption.
Qed.

Lemma validate_arg_Ok i arg r :
  validate_arg i arg = Ok r ->
  is_string arg /\ ~ interior_nul arg /\ stripped_of arg r /\ nul_free r.
Proof.
  intro H.
  assert (Hs : is_string arg).
  { destruct arg; try reflexivity; discriminate. }
  assert (Hn : ~ interior_nul arg).
  { intro Hi. rewrite (validate_arg_bad i arg Hi) in H. discriminate. }
  destruct (validate_arg_good i arg Hs Hn) as (r' & E & H1 & H2).
  rewrite E in H. inversion H; subst. auto.
Qed.

(** *** Running the validator *)

Lemma rbind_Ok {A B} (m : result A) (k : A -> result B) b :
  rbind m k = Ok b -> exists a, m = Ok a /\ k a = Ok b.
Proof. destruct m; simpl; [eauto | discriminate]. Qed.

Lemma check_Ok c fmt args u : check c fmt args = Ok u -> c = false.
Proof. destruct c; [discriminate | reflexivity]. Qed.

Ltac invert_Ok H :=
  repeat match type of H with
         | rbind (check _ _ _) _ = Ok _ =>
             let u := fresh "u" in
             let C := fresh "C" in
             apply rbind_Ok in H; destruct H as (u & C & H);
             apply check_Ok in C
         | rbind _ _ = Ok _ =>
             let a := fresh "a" in
             let E := fresh "E" in
             apply rbind_Ok in H; destruct H as (a & E & H)
         end.

(** *** The argv loop *)

Lemma validate_argv_Ok items : forall n out,
  validate_argv n items = Ok out ->
  Forall2 stripped_of items out /\ Forall nul_free out /\
  Forall (fun a => ~ interior_nul a) items.
Proof.
  induction items as [| arg rest IH]; intros n out H; simpl in H.
  - inversion H. repeat split; constructor.
  - invert_Ok H. inversion H; subst.
    destruct (validate_arg_Ok _ _ _ E) as (_ & Hn & Hs & Hf).
    destruct (IH _ _ E0) as (H1 & H2 & H3).
    repeat split; constructor; assumption.
Qed.


(** *** The environment loop *)



Lemma validate_env_item_Ok k v k' v' :
  validate_env_item k v = Ok (k', v') ->
  ~ interior_nul k /\ ~ interior_nul v /\
  stripped_of k k' /\ stripped_of v v' /\ nul_free k' /\ nul_free v'.
Proof.
  intro H. unfold validate_env_item in H.
  destruct (isinstance_bytes_str k) eqn:Hk; [| discriminate].
  destruct (isinstance_bytes_str v) eqn:Hv; [| discriminate].
  simpl in H.
  destruct (nulls_before_last_spec k Hk) as (b & E & Hb).
  rewrite E in H. simpl in H. destruct b; [discriminate |]. simpl in H.
  destruct (nulls_before_last_spec v Hv) as (c & E' & Hc).
  rewrite E' in H. simpl in H. destruct c; [discriminate |]. simpl in H.
  assert (Hnk : ~ interior_nul k) by (intro X; apply Hb in X; discriminate).
  assert (Hnv : ~ interior_nul v) by (intro X; apply Hc in X; discriminate).
  destruct (rstrip_nul_spec k Hk Hnk) as (rk & Ek & Sk & Fk).
  destruct (rstrip_nul_spec v Hv Hnv) as (rv & Ev & Sv & Fv).
  rewrite Ek, Ev in H. simpl in H. inversion H; subst. auto 10.
Qed.

Lemma list_eqb_eq {A} (eqb : A -> A -> bool) :
  (forall a b, eqb a b = true -> a = b) ->
  forall l1 l2, list_eqb eqb l1 l2 = true -> l1 = l2.
Proof.
  intros Heq. induction l1 as [| a t IH]; destruct l2 as [| b u]; simpl;
    try discriminate; auto.
  intro H. apply andb_true_iff in H. destruct H as [H1 H2].
  f_equal; auto.
Qed.

Lemma key_eqb_eq k1 k2 : key_eqb k1 k2 = true -> k1 = k2.
Proof.
  destruct k1, k2; simpl; try discriminate; intro H; f_equal.
  - eapply list_eqb_eq; [| exact H]. apply Byte.byte_dec_bl.
  - eapply list_eqb_eq; [| exact H]. intros a b. apply Ascii.eqb_eq.
Qed.

Lemma dict_set_In k v d k' v' :
  In (k', v') (dict_set k v d) -> In (k', v') d \/ (k' = k /\ v' = v).
Proof.
  induction d as [| [k0 v0] t IH]; simpl.
  - intros [H | []]. inversion H. auto.
  - destruct (key_eqb k0 k) eqn:E.
    + apply key_eqb_eq in E. subst k0.
      intros [H | H]; [inversion H; auto | auto].
    + intros [H | H]; [auto | ]. destruct (IH H); auto.
Qed.

Lemma validate_env_Ok input items : forall acc env',
  incl items input ->
  from_items input acc ->
  validate_env items acc = Ok env' ->
  from_items input env' /\
  Forall (fun kv => ~ interior_nul (fst kv) /\ ~ interior_nul (snd kv)) items.
Proof.
  induction items as [| [k v] rest IH]; intros acc env' Hincl Hacc H; simpl in H.
  - inversion H; subst. split; [assumption | constructor].
  - invert_Ok H. destruct a as [k' v'].
    destruct (validate_env_item_Ok _ _ _ _ E) as (N1 & N2 & S1 & S2 & F1 & F2).
    destruct (IH (dict_set k' v' acc) env') as [G1 G2].
    + intros x Hx. apply Hincl. right. exact Hx.
    + intros a b Hab. apply dict_set_In in Hab.
      destruct Hab as [Hab | [-> ->]]; [apply Hacc; exact Hab |].
      split; [exact F1 |]. split; [exact F2 |].
      exists k, v. split; [apply Hincl; left; reflexivity | auto].
    + exact H.
    + split; [exact G1 |]. constructor; simpl; auto.
Qed.

(** *** The whole validator *)

Section WithSystem.
Variable which : list ascii -> option (list ascii).
Variables path_exists path_isfile access_X_OK : list ascii -> bool.
Variable os_environ : dict.

Local Abbreviation validate :=
  (_validate which path_exists path_isfile access_X_OK os_environ).

Lemma validate_Ok cwd executable argv env exe argv' env' :
  validate cwd executable argv env = Ok (exe, argv', env') ->
  exists items,
    argv_items argv = Ok items /\
    Forall2 stripped_of items argv' /\ Forall nul_free argv' /\
    Forall (fun a => ~ interior_nul a) items /\
    from_items (env_items os_environ env) env' /\
    Forall (fun kv => ~ interior_nul (fst kv) /\ ~ interior_nul (snd kv))
           (env_items os_environ env).
Proof.
  unfold validate, _validate. intro H. invert_Ok H.
  inversion H; subst; clear H.
  destruct (validate_argv_Ok _ _ _ E0) as (H1 & H2 & H3).
  destruct (validate_env_Ok (env_items os_environ env)
              (env_items os_environ env) [] env') as [G1 G2].
  - apply incl_refl.
  - intros k v [].
  - exact E2.
  - exists a. auto 10.
Qed.


End WithSystem.



End ValidateFacts.

(** ** The child pre-exec routine *)

Module PreExecFacts.
Import PreExec.

(** The steps of the routine from the core-dump limit on. *)
Lemma preexec_without_pty self w :
  pty self = None -> aslr self = true ->
  _preexec_fn self w [] =
    (call (Setrlimit RLIMIT_CORE (-1) (-1)) (setrlimit_core_res w) ;;
     try_except
       (call (WriteFile "/proc/self/coredump_filter" "0xff")
             (coredump_filter_res w))
       (except_any (ret tt)) ;;
     (if is_False (_setuid self) then
        try_except (call (Prctl PR_SET_NO_NEW_PRIVS 1) (prctl_res w))
                   (except_any (ret tt))
      else ret tt) ;;
     call UserPreexecFn (preexec_fn_res w)) [].
Proof.
  intros Hp Ha. unfold _preexec_fn. rewrite Hp, Ha. reflexivity.
Qed.

(** A failure of [setrlimit(RLIMIT_CORE, ...)] ends the routine: no
    handler surrounds the call. *)
Lemma core_limit_failure_propagates self w e :
  pty self = None -> aslr self = true ->
  setrlimit_core_res w = Fails e ->
  _preexec_fn self w [] = ([Setrlimit RLIMIT_CORE (-1) (-1)], Raise e).
Proof.
  intros Hp Ha Hc. rewrite (preexec_without_pty self w Hp Ha).
  unfold bind at 1, call. rewrite Hc. reflexivity.
Qed.

(** A failure to write the core-dump filter is swallowed: the routine
    goes on to the caller's hook. *)
Lemma coredump_filter_failure_swallowed self w e :
  pty self = None -> aslr self = true -> _setuid self = None ->
  setrlimit_core_res w = Returns tt ->
  coredump_filter_res w = Fails e ->
  _preexec_fn self w [] =
    ([Setrlimit RLIMIT_CORE (-1) (-1);
      WriteFile "/proc/self/coredump_filter" "0xff";
      UserPreexecFn],
     match preexec_fn_res w with
     | Returns u => Ret u
     | Fails e' => Raise e'
     end).
Proof.
  intros Hp Ha Hs Hc Hf. rewrite (preexec_without_pty self w Hp Ha).
  rewrite Hs. unfold bind, try_except, call, except_any, ret. simpl.
  rewrite Hc, Hf. simpl. reflexivity.
Qed.

(** C8 (the code at the failing input): with the default settings and a
    system that refuses to raise the core-dump limit, the routine raises
    at that step; the core-dump filter is not written and the caller's
    hook is not run. *)
Theorem preexec_core_limit_failure_is_fatal :
  snd (_preexec_fn default_settings core_limit_refused [])
    = Raise (ValueError "not allowed to raise maximum limit") /\
  last (fst (_preexec_fn default_settings core_limit_refused [])) Setsid
    = Setrlimit RLIMIT_CORE (-1) (-1) /\
  ~ In (WriteFile "/proc/self/coredump_filter" "0xff")
       (fst (_preexec_fn default_settings core_limit_refused [])) /\
  ~ In UserPreexecFn (fst (_preexec_fn default_settings core_limit_refused [])) /\
  snd (_preexec_fn default_settings filter_unwritable []) = Ret tt /\
  In UserPreexecFn (fst (_preexec_fn default_settings filter_unwritable [])).
Proof.
  split; [reflexivity |]. split; [reflexivity |].
  split; [| split; [| split]].
  - vm_compute. intro H.
    repeat (destruct H as [H | H]; [discriminate H |]). exact H.
  - vm_compute. intro H.
    repeat (destruct H as [H | H]; [discriminate H |]). exact H.
  - reflexivity.
  - vm_compute. tauto.
Qed.

End PreExecFacts.

(** ** The launcher loop *)

Module LauncherFacts.
Import Launcher.

Section WithSystem.
Variable Popen : list pyval -> pyval -> answer Z.
Variable get_qemu_user : answer pyval.
Variable argv : list pyval.

Local Abbreviation loop := (spawn_loop Popen).
Local Abbreviation fails_exec_format := (exec_format_failure Popen argv).

(** Candidates that fail with [ENOEXEC] are passed over, each after
    one attempt. *)
Lemma spawn_loop_skips all done : forall rest exception tr,
  Forall fails_exec_format done ->
  loop all argv (done ++ rest) exception tr =
  loop all argv rest (stored_after Popen argv done exception)
       (tr ++ map (attempt argv) done).
Proof.
  induction done as [| [prefix executable] more IH];
    intros rest exception tr H.
  - simpl. rewrite app_nil_r. reflexivity.
  - inversion H as [| ? ? [msg Hc] Hmore]; subst.
    unfold creation in Hc. simpl in Hc.
    cbn [app spawn_loop stored_after map].
    unfold creation. cbn [fst snd]. rewrite Hc.
    unfold bind at 1, try_except, bind at 1, call.
    cbn. rewrite IH by exact Hmore. rewrite <- app_assoc. reflexivity.
Qed.

Lemma spawn_loop_created all prefix executable rest exception tr pid :
  Popen (prefix ++ argv) executable = Returns pid ->
  loop all argv ((prefix, executable) :: rest) exception tr =
  (tr ++ [PopenCall (prefix ++ argv) executable], Ret pid).
Proof.
  intro H. cbn [spawn_loop].
  unfold bind at 1, try_except, bind at 1, call. rewrite H. reflexivity.
Qed.

Lemma spawn_loop_fatal all prefix executable rest exception tr e :
  Popen (prefix ++ argv) executable = Fails e ->
  is_exec_format_error e = false ->
  loop all argv ((prefix, executable) :: rest) exception tr =
  (tr ++ [PopenCall (prefix ++ argv) executable], Raise e).
Proof.
  intros H He. cbn [spawn_loop].
  unfold bind at 1, try_except, bind at 1, call. rewrite H.
  destruct e; try reflexivity.
  simpl in He. rewrite He. reflexivity.
Qed.

Lemma stored_after_last init c exception e :
  creation Popen argv c = Fails e ->
  stored_after Popen argv (init ++ [c]) exception = Some e.
Proof.
  revert exception. induction init as [| d more IH]; intros exception H; simpl.
  - rewrite H. reflexivity.
  - apply IH. exact H.
Qed.

(** C2: the candidates are tried in order.  The first one whose
    creation does not fail with "exec format error" decides: its process
    is the result, or its exception is raised at once, and no later
    candidate is attempted.  When every candidate fails with "exec format
    error", the error of the last one is raised, after it has been
    handed to the logger. *)
Theorem spawn_tries_candidates_in_order executable :
  let candidates := prefixes get_qemu_user executable in
  (forall before c after pid,
      candidates = before ++ c :: after ->
      Forall fails_exec_format before ->
      creation Popen argv c = Returns pid ->
      spawn Popen get_qemu_user executable argv [] =
        (map (attempt argv) (before ++ [c]), Ret pid)) /\
  (forall before c after e,
      candidates = before ++ c :: after ->
      Forall fails_exec_format before ->
      creation Popen argv c = Fails e ->
      is_exec_format_error e = false ->
      spawn Popen get_qemu_user executable argv [] =
        (map (attempt argv) (before ++ [c]), Raise e)) /\
  (forall before c e,
      candidates = before ++ [c] ->
      Forall fails_exec_format candidates ->
      creation Popen argv c = Fails e ->
      spawn Popen get_qemu_user executable argv [] =
        (map (attempt argv) candidates ++ [LogError (str_prefixes candidates)],
         Raise e)).
Proof.
  intro candidates. unfold spawn. fold candidates.
  split; [| split].
  - intros before [prefix exe] after pid Hc Hb Hpid.
    rewrite Hc at 2. rewrite spawn_loop_skips by exact Hb.
    rewrite (spawn_loop_created _ _ _ _ _ _ pid) by exact Hpid.
    rewrite map_app. reflexivity.
  - intros before [prefix exe] after e Hc Hb He Hne.
    rewrite Hc at 2. rewrite spawn_loop_skips by exact Hb.
    rewrite (spawn_loop_fatal _ _ _ _ _ _ e) by assumption.
    rewrite map_app. reflexivity.
  - intros before c e Hc Hall He.
    rewrite <- (app_nil_r candidates) at 2.
    rewrite spawn_loop_skips by exact Hall.
    rewrite Hc at 2. rewrite (stored_after_last before c None e He).
    reflexivity.
Qed.
End WithSystem.

Lemma spawn_tries_candidates_in_order_witness :
  spawn foreign_binary (Returns qemu_arm) native [native] [] =
    ([PopenCall [native] native; PopenCall [qemu_arm; native] qemu_arm],
     Ret 4243%Z) /\
  spawn unrunnable (Returns qemu_arm) native [native] [] =
    ([PopenCall [native] native; PopenCall [qemu_arm; native] qemu_arm;
      LogError (str_prefixes [([], native); ([qemu_arm], qemu_arm)])],
     Raise (OSError ENOEXEC "Exec format error: under qemu")).
Proof.
  split.
  - apply (proj1 (spawn_tries_candidates_in_order foreign_binary
                    (Returns qemu_arm) [native] native)
                 [([], native)] ([qemu_arm], qemu_arm) [] 4243%Z).
    + reflexivity.
    + constructor; [| constructor]. eexists. reflexivity.
    + reflexivity.
  - apply (proj2 (proj2 (spawn_tries_candidates_in_order unrunnable
                           (Returns qemu_arm) [native] native))
                 [([], native)] ([qemu_arm], qemu_arm)).
    + reflexivity.
    + constructor; [| constructor; [| constructor]]; eexists; reflexivity.
    + reflexivity.
Defined.

End LauncherFacts.

(** ** Introspection *)

Module IntrospectionFacts.
Import Introspection.

(** C9 (amended): [leak] raises when the real path of the executable
    names the emulator.  Otherwise it opens the memory file, seeks and
    reads: it returns [None] when the read returns no byte, returns the
    bytes read when there are any, also fewer than [count], and a failure
    of the open, the seek or the read is raised to the caller. *)
Theorem leak_outcomes w address count :
  (contains "qemu-" (exe_realpath w) = true ->
   leak w address count [] =
     ([], Raise (PwnlibException "Cannot use leaker on binaries under QEMU." []))) /\
  (contains "qemu-" (exe_realpath w) = false ->
   (forall e, open_res w = Fails e ->
              leak w address count [] = ([OpenMem], Raise e)) /\
   (open_res w = Returns tt ->
    (forall e, seek_res w address = Fails e ->
               leak w address count [] =
                 ([OpenMem; Seek address; CloseMem], Raise e)) /\
    (seek_res w address = Returns tt ->
     (forall e, read_res w count = Fails e ->
                leak w address count [] =
                  ([OpenMem; Seek address; Read count; CloseMem], Raise e)) /\
     (forall d, read_res w count = Returns d ->
                leak w address count [] =
                  ([OpenMem; Seek address; Read count; CloseMem],
                   Ret (match d with [] => None | _ :: _ => Some d end)))))).
Proof.
  unfold leak, log_error, with_mem, bind, call, raise, ret.
  split; intro Hq; rewrite Hq; simpl.
  - reflexivity.
  - split; [intros e Ho; rewrite Ho; reflexivity |].
    intro Ho. rewrite Ho. simpl.
    split; [intros e Hs; rewrite Hs; reflexivity |].
    intro Hs. rewrite Hs. simpl.
    split; intros x Hr; rewrite Hr; simpl; [reflexivity |].
    destruct x; reflexivity.
Qed.

Lemma leak_outcomes_witness :
  leak emulated 4096%Z 4%Z [] =
    ([], Raise (PwnlibException "Cannot use leaker on binaries under QEMU." [])) /\
  leak short_read 4096%Z 4%Z [] =
    ([OpenMem; Seek 4096%Z; Read 4%Z; CloseMem], Ret (Some [x41])).
Proof.
  split.
  - apply (proj1 (leak_outcomes emulated 4096%Z 4%Z)). reflexivity.
  - refine (proj2 (proj2 (proj2 (proj2 (leak_outcomes short_read 4096%Z 4%Z)
                    eq_refl) eq_refl) eq_refl) [x41] eq_refl).
Defined.

(** C9 (counterexample): the process is not emulated; a read that
    returns fewer bytes than asked for is returned as it is, and a read
    that fails raises. *)
Lemma leak_short_or_failed_read_is_not_None :
  contains "qemu-" (exe_realpath short_read) = false /\
  snd (leak short_read 4096%Z 4%Z []) = Ret (Some [x41]) /\
  contains "qemu-" (exe_realpath unmapped) = false /\
  snd (leak unmapped 4096%Z 4%Z []) = Raise (OSError EIO "Input/output error").
Proof. repeat split. Qed.

End IntrospectionFacts.

(** ** More on the raw tube primitives *)

Module TubeMore.
Import Tube TubeSpec TubeFacts.

(** *** Relations kept by every step *)

Section Stepwise.
Variable R : process -> process -> Prop.
Hypothesis R_refl : forall s, R s s.
Hypothesis R_trans : forall s t u, R s t -> R t u -> R s u.

Lemma steps_ret {A} (a : A) : steps R (ret a).
Proof. intro s. apply R_refl. Qed.

Lemma steps_raise {A} e : steps R (@raise process A e).
Proof. intro s. apply R_refl. Qed.

Lemma steps_hang {A} : steps R (@hang process A).
Proof. intro s. apply R_refl. Qed.

Lemma steps_gets {A} (f : process -> A) : steps R (gets f).
Proof. intro s. apply R_refl. Qed.

Lemma steps_attr {A} (o : option A) : steps R (@attr process A o).
Proof. destruct o; [apply steps_ret | apply steps_raise]. Qed.

Lemma steps_get_proc : steps R get_proc.
Proof. intro s. unfold get_proc. apply steps_attr. Qed.

Lemma steps_bind {A B} (m : P A) (k : A -> P B) :
  steps R m -> (forall a, steps R (k a)) -> steps R (bind m k).
Proof.
  intros Hm Hk s. unfold bind. specialize (Hm s).
  destruct (m s) as [s' [a | e |]]; simpl in *; auto.
  eapply R_trans; [exact Hm | apply Hk].
Qed.

Lemma steps_except_OSError {A} (m k : P A) :
  steps R m -> steps R k -> steps R (try_except m (except_OSError k)).
Proof.
  intros Hm Hk s. unfold try_except, except_OSError. specialize (Hm s).
  destruct (m s) as [s' [a | e |]]; simpl in *; auto.
  destruct (is_OSError e); simpl; auto.
  eapply R_trans; [exact Hm | apply Hk].
Qed.
End Stepwise.

Ltac steps_step refl trans :=
  match goal with
  | |- steps _ (bind _ _) => apply (steps_bind _ trans); [| intro]
  | |- steps _ (try_except _ (except_OSError _)) =>
      apply (steps_except_OSError _ trans)
  | |- steps _ (if ?b then _ else _) => destruct b
  | |- steps _ (match ?x with _ => _ end) => destruct x
  | |- steps _ (ret _) => apply (steps_ret _ refl)
  | |- steps _ (raise _) => apply (steps_raise _ refl)
  | |- steps _ hang => apply (steps_hang _ refl)
  | |- steps _ (gets _) => apply (steps_gets _ refl)
  | |- steps _ (attr _) => apply (steps_attr _ refl)
  | |- steps _ get_proc => apply (steps_get_proc _ refl)
  | |- steps _ _ => solve [auto]
  end.

Ltac steps_tac refl trans := repeat steps_step refl trans.

(** Every method is built from [poll_now], [close] and updates of
    [self.proc]: a relation kept by these three is kept by all. *)
Section Methods.
Variable R : process -> process -> Prop.
Hypothesis R_refl : forall s, R s s.
Hypothesis R_trans : forall s t u, R s t -> R t u -> R s u.
Hypothesis R_poll_now : forall w, steps R (poll_now w).
Hypothesis R_close : forall w, steps R (close w).
Hypothesis R_close_stream : forall f,
  steps R (modify_proc (set_stdin (Some (file_close f)))) /\
  steps R (modify_proc (set_stdout (Some (file_close f)))).

Lemma steps_connected_raw w d : steps R (connected_raw w d).
Proof.
  unfold connected_raw. pose proof (R_poll_now w). steps_tac R_refl R_trans.
Qed.

Lemma steps_wait_for_close_loop w obs : steps R (wait_for_close_loop w obs).
Proof.
  induction obs as [| o rest IH]; simpl.
  - pose proof (steps_connected_raw w "any"). steps_tac R_refl R_trans.
  - pose proof (steps_connected_raw (with_status w o) "any").
    steps_tac R_refl R_trans.
Qed.

Lemma steps_poll w block : steps R (poll w block).
Proof.
  unfold poll, wait_for_close.
  pose proof (steps_wait_for_close_loop w (wait_obs w)).
  pose proof (R_poll_now w). steps_tac R_refl R_trans.
Qed.

Lemma steps_can_recv_raw w t : steps R (can_recv_raw w t).
Proof.
  unfold can_recv_raw, select_.
  pose proof (steps_connected_raw w "recv"). steps_tac R_refl R_trans.
Qed.

Lemma steps_shutdown_raw w d : steps R (shutdown_raw w d).
Proof.
  unfold shutdown_raw. pose proof (R_close w).
  assert (forall f, steps R (modify_proc (set_stdin (Some (file_close f)))))
    by (intro f; apply R_close_stream).
  assert (forall f, steps R (modify_proc (set_stdout (Some (file_close f)))))
    by (intro f; apply R_close_stream).
  steps_tac R_refl R_trans.
Qed.

Lemma steps_recv_raw w numb : steps R (recv_raw w numb).
Proof.
  unfold recv_raw, shutdown, file_read.
  pose proof (steps_poll w false). pose proof (steps_connected_raw w "recv").
  pose proof (steps_shutdown_raw w "recv").
  assert (forall t, steps R (can_recv_raw w t)) by (intro; apply steps_can_recv_raw).
  steps_tac R_refl R_trans.
Qed.

Lemma steps_send_raw w data : steps R (send_raw w data).
Proof.
  unfold send_raw, file_write, file_flush.
  pose proof (steps_poll w false). pose proof (steps_connected_raw w "send").
  steps_tac R_refl R_trans.
Qed.

Lemma steps_run_method w m s : R s (run_method w m s).
Proof.
  destruct m; simpl.
  - apply steps_poll.
  - apply steps_recv_raw.
  - apply steps_send_raw.
  - apply R_refl.
  - apply steps_can_recv_raw.
  - apply steps_connected_raw.
  - apply R_close.
  - apply R_close.
  - apply steps_shutdown_raw.
Qed.

Lemma steps_run calls : forall s, R s (run calls s).
Proof.
  induction calls as [| [w m] rest IH]; intro s; simpl.
  - apply R_refl.
  - eapply R_trans; [apply steps_run_method | apply IH].
Qed.
End Methods.

(** *** One report of the stop *)

Lemma reports_once_refl s : reports_once s s.
Proof. split; auto. Qed.

Lemma reports_once_trans s t u :
  reports_once s t -> reports_once t u -> reports_once s u.
Proof.
  intros [A1 A2] [B1 B2]. split.
  - intro H. destruct (A1 H) as [Ht El]. destruct (B1 Ht) as [Hu El'].
    split; congruence.
  - intro H. destruct (A2 H) as [[Ht El] | [Ht [r El]]].
    + destruct (B2 Ht) as [[Hu El'] | [Hu [r El']]].
      * left. split; congruence.
      * right. split; [exact Hu |]. exists r. congruence.
    + destruct (B1 Ht) as [Hu El']. right. split; [exact Hu |].
      exists r. congruence.
Qed.

Ltac reports_once_cases :=
  unfold reports_once; simpl;
  split; (let H := fresh "Hflag" in intro H; try discriminate H);
  first [ split; reflexivity
        | left; split; reflexivity
        | right; split; [reflexivity | eexists; reflexivity] ].

Lemma reports_once_poll_now w : steps reports_once (poll_now w).
Proof. intro s. break_handle s w; reports_once_cases. Qed.

Lemma reports_once_close w : steps reports_once (close w).
Proof. intro s. break_handle s w; reports_once_cases. Qed.

Lemma reports_once_modify_proc f : steps reports_once (modify_proc f).
Proof.
  intro s. unfold modify_proc. destruct (proc s); simpl;
    [| apply reports_once_refl].
  split; simpl; auto.
Qed.

(** X1: over any sequence of calls on a handle at most one record is
    added to its log, and none once [_stop_noticed] is set: the stop of
    the child is reported once, by [poll] or by [close], never by both. *)
Theorem stop_reported_at_most_once calls s :
  (_stop_noticed s = true -> log (run calls s) = log s) /\
  (_stop_noticed s = false ->
   log (run calls s) = log s \/ exists r, log (run calls s) = log s ++ [r]).
Proof.
  assert (H : reports_once s (run calls s)).
  { apply steps_run.
    - apply reports_once_refl.
    - apply reports_once_trans.
    - apply reports_once_poll_now.
    - apply reports_once_close.
    - intro f. split; apply reports_once_modify_proc. }
  destruct H as [H1 H2]. split.
  - intro Hn. apply H1. exact Hn.
  - intro Hn. destruct (H2 Hn) as [[_ E] | [_ E]]; auto.
Qed.

Lemma stop_reported_at_most_once_witness :
  log (run [(exited, Poll false); (quiet, Close); (exited, RecvRaw 8%Z)]
           (fst (poll exited false spawned)))
    = log (fst (poll exited false spawned)) /\
  (log (run [(quiet, Poll false); (quiet, Close); (exited, Poll true)] spawned)
     = log spawned \/
   exists r,
     log (run [(quiet, Poll false); (quiet, Close); (exited, Poll true)] spawned)
       = log spawned ++ [r]).
Proof.
  split.
  - apply (proj1 (stop_reported_at_most_once _ (fst (poll exited false spawned)))).
    reflexivity.
  - apply (proj2 (stop_reported_at_most_once _ spawned)). reflexivity.
Defined.

(** *** The flag is backed by a status *)

Ltac consistent_cases :=
  let Hc := fresh "Hc" in
  let Hflag := fresh "Hflag" in
  let Hp := fresh "Hp" in
  let Hrc := fresh "Hrc" in
  unfold keeps_consistent, consistent; simpl; intros Hc Hflag;
  first [ discriminate Hflag
        | do 2 eexists; split; reflexivity
        | specialize (Hc eq_refl); destruct Hc as (? & ? & Hp & Hrc);
          inversion Hp; subst; discriminate Hrc ].

Lemma keeps_consistent_poll_now w : steps keeps_consistent (poll_now w).
Proof. intro s. break_handle s w; consistent_cases. Qed.

Lemma keeps_consistent_close w : steps keeps_consistent (close w).
Proof. intro s. break_handle s w; consistent_cases. Qed.

Lemma keeps_consistent_modify_proc f :
  keeps_status f -> steps keeps_consistent (modify_proc f).
Proof.
  intros Hf s Hc. unfold modify_proc.
  destruct (proc s) as [p |] eqn:Hp; simpl; [| exact Hc].
  intro Hn. simpl in Hn. destruct (Hc Hn) as (q & rc & Hq & Hrc).
  rewrite Hp in Hq. inversion Hq; subst q.
  destruct (Hf p rc Hrc) as [rc' Hrc']. simpl. eauto.
Qed.

(** X2: on a handle that starts with [_stop_noticed] unset, whatever is
    called afterwards, [_stop_noticed] is only ever set when an exit status
    of the child is recorded. *)
Theorem stop_noticed_only_when_reaped calls s :
  _stop_noticed s = false ->
  _stop_noticed (run calls s) = true -> reaped (run calls s).
Proof.
  intros Hn Hrun.
  assert (H : keeps_consistent s (run calls s)).
  { apply steps_run.
    - intros t Ht. exact Ht.
    - intros t u v Htu Huv Ht. auto.
    - apply keeps_consistent_poll_now.
    - apply keeps_consistent_close.
    - intro f. split; apply keeps_consistent_modify_proc;
        intros p rc Hrc; exists rc; exact Hrc. }
  apply H; [| exact Hrun].
  intro Hs. congruence.
Qed.

Lemma stop_noticed_only_when_reaped_witness :
  reaped (run [(quiet, SendRaw [x68]); (kill_refused, Close); (quiet, Kill)] spawned).
Proof.
  apply stop_noticed_only_when_reaped; reflexivity.
Defined.

(** X3: an exit status once recorded is never changed, and a stream once
    closed is never open again, whatever is called on the handle. *)
Theorem status_and_closure_are_final calls s p :
  proc s = Some p ->
  exists p', proc (run calls s) = Some p' /\
    (forall rc, returncode p = Some rc -> returncode p' = Some rc) /\
    (is_closed (stdin p) = true -> is_closed (stdin p') = true) /\
    (is_closed (stdout p) = true -> is_closed (stdout p') = true).
Proof.
  intro Hp. destruct (run_evolves calls s) as [H _].
  destruct (H p Hp) as (p' & Hp' & H1 & H2 & H3).
  exists p'. auto.
Qed.

Lemma status_and_closure_are_final_witness :
  exists p',
    proc (run [(quiet, Close); (exited, Poll false)]
              (fst (poll exited false spawned))) = Some p' /\
    returncode p' = Some 0%Z.
Proof.
  destruct (status_and_closure_are_final
              [(quiet, Close); (exited, Poll false)]
              (fst (poll exited false spawned))
              (mkPopen (Some (mkfile false)) (Some (mkfile false))
                       (Some (mkfile false)) (Some 0%Z) 4242%Z)
              eq_refl)
    as (p' & Hp' & Hrc & _).
  exists p'. split; [exact Hp' | apply Hrc; reflexivity].
Defined.

(** *** Receiving and sending *)

(** X4: when the readiness check reports nothing within the timeout,
    [recv_raw] returns the empty string; it raises nothing and closes
    nothing. *)
Theorem recv_raw_timeout_returns_empty w numb s p fo :
  proc s = Some p -> stdout p = Some fo -> closed fo = false ->
  select_res w (timeout s) = SelReturns false ->
  recv_raw w numb s = (fst (poll w false s), Ret []) /\
  recv_closed (fst (recv_raw w numb s)) = false.
Proof.
  intros Hp Ho Hc Hsel.
  destruct s as [[[si so se rcode pd] |] n exe t l]; [| discriminate].
  destruct w as [cs wo sel rd wr fl kr ws].
  simpl in *. inversion Hp; subst p; clear Hp. simpl in *. subst so.
  destruct fo as [co]. simpl in Hc. subst co.
  destruct rcode, cs, n; cbv; rewrite Hsel; split; reflexivity.
Qed.

Lemma recv_raw_timeout_returns_empty_witness :
  recv_raw quiet 64%Z spawned = (fst (poll quiet false spawned), Ret []) /\
  recv_closed (fst (recv_raw quiet 64%Z spawned)) = false.
Proof.
  apply (recv_raw_timeout_returns_empty quiet 64%Z spawned _ (mkfile false)
           eq_refl eq_refl eq_refl eq_refl).
Defined.

(** X5: on a connected send direction [send_raw] returns when the write
    and the flush succeed, and turns an [OSError] of either into
    [EOFError]; unlike [recv_raw] it leaves the stream open when it
    fails. *)
Theorem send_raw_outcomes w data s p fi :
  proc s = Some p -> stdin p = Some fi -> closed fi = false ->
  (write_res w data = None -> flush_res w = None ->
   send_raw w data s = (fst (poll w false s), Ret tt)) /\
  (forall errno msg,
      write_res w data = Some (OSError errno msg) \/
      (write_res w data = None /\ flush_res w = Some (OSError errno msg)) ->
      send_raw w data s = (fst (poll w false s), Raise EOFError)) /\
  send_closed (fst (send_raw w data s)) = false.
Proof.
  intros Hp Hi Hc.
  destruct s as [[[si so se rcode pd] |] n exe t l]; [| discriminate].
  destruct w as [cs wo sel rd wr fl kr ws].
  simpl in *. inversion Hp; subst p; clear Hp. simpl in *. subst si.
  destruct fi as [ci]. simpl in Hc. subst ci.
  split; [| split].
  - intros Hw Hf. subst fl.
    destruct rcode, cs, n; cbv; rewrite Hw; reflexivity.
  - intros errno msg [Hw | [Hw Hf]].
    + destruct rcode, cs, n; cbv; rewrite Hw; reflexivity.
    + subst fl. destruct rcode, cs, n; cbv; rewrite Hw; reflexivity.
  - destruct rcode, cs, n; cbv;
      destruct (wr data) as [e |]; try reflexivity;
      try (destruct e; reflexivity);
      destruct fl as [e |]; try reflexivity; destruct e; reflexivity.
Qed.

Lemma send_raw_outcomes_witness :
  send_raw quiet [x68; x69] spawned = (fst (poll quiet false spawned), Ret tt).
Proof.
  apply (proj1 (send_raw_outcomes quiet [x68; x69] spawned _ (mkfile false)
                  eq_refl eq_refl eq_refl)); reflexivity.
Defined.

(** *** Shutdown *)





(** *** Observers *)

(** X8: [can_recv_raw] and [connected_raw] for "send" and "recv" only
    look at the handle: whatever they return or raise, the handle is as
    before (it is [connected_raw("any")] that polls and may log). *)
Theorem observers_leave_handle w t s :
  fst (can_recv_raw w t s) = s /\
  fst (connected_raw w "send" s) = s /\
  fst (connected_raw w "recv" s) = s.
Proof.
  destruct s as [[[si so se rcode pd] |] n exe tm l];
    destruct w as [cs wo sel rd wr fl kr ws].
  - destruct si as [[ci] |], so as [[[|]] |];
      repeat split; try reflexivity;
      cbv; destruct (sel t) as [r | e]; try reflexivity;
      destruct e; reflexivity.
  - repeat split.
Qed.



End TubeMore.

(** ** More on the validation *)

Module ValidateMore.
Import Validate ValidateFacts.

(** *** Values that are already clean *)

Lemma rstrip_clean {A} (is_nul : A -> bool) (s : list A) :
  forallb (fun c => negb (is_nul c)) s = true -> rstrip is_nul s = s.
Proof.
  induction s as [| c t IH]; simpl; auto.
  intro H. apply andb_true_iff in H. destruct H as [Hc Ht].
  rewrite (IH Ht). destruct t; [| reflexivity].
  destruct (is_nul c); [discriminate | reflexivity].
Qed.

Lemma not_In_forallb {A} (is_nul : A -> bool) (nul : A) (s : list A) :
  (forall c, is_nul c = true <-> c = nul) ->
  ~ In nul s -> forallb (fun c => negb (is_nul c)) s = true.
Proof.
  intros Hspec Hn. apply forallb_forall. intros c Hc.
  destruct (is_nul c) eqn:E; [| reflexivity].
  apply Hspec in E. subst. contradiction.
Qed.

Lemma stripped_is_string arg r : stripped_of arg r -> is_string r.
Proof. destruct arg, r; simpl; try contradiction; reflexivity. Qed.

Lemma nul_free_not_interior r : nul_free r -> ~ interior_nul r.
Proof.
  destruct r; simpl; auto; intros Hn Hi; apply Hn.
  - apply In_removelast. apply interior_In. exact Hi.
  - apply In_removelast. apply interior_In. exact Hi.
Qed.

Lemma rstrip_nul_clean r : is_string r -> nul_free r -> rstrip_nul r = Ok r.
Proof.
  destruct r; try discriminate; intros _ Hn; simpl in *; do 2 f_equal.
  - apply rstrip_clean. eapply not_In_forallb; [apply nul_byte_spec | exact Hn].
  - apply rstrip_clean. eapply not_In_forallb; [apply nul_char_spec | exact Hn].
Qed.

Lemma validate_arg_clean i r :
  is_string r -> nul_free r -> validate_arg i r = Ok r.
Proof.
  intros Hs Hn.
  destruct (validate_arg_good i r Hs (nul_free_not_interior r Hn))
    as (r' & E & _).
  rewrite E. unfold validate_arg in E.
  destruct (nulls_before_last r) as [b |]; [| discriminate]. simpl in E.
  destruct b; [discriminate |]. simpl in E.
  rewrite (rstrip_nul_clean r Hs Hn) in E. symmetry. exact E.
Qed.

Lemma validate_argv_clean out : forall n,
  Forall is_string out -> Forall nul_free out -> validate_argv n out = Ok out.
Proof.
  induction out as [| r rest IH]; intros n Hs Hn; simpl; [reflexivity |].
  inversion Hs; inversion Hn; subst.
  rewrite validate_arg_clean by assumption. simpl.
  rewrite IH by assumption. reflexivity.
Qed.

Lemma validate_env_item_clean k v :
  is_string k -> is_string v -> nul_free k -> nul_free v ->
  validate_env_item k v = Ok (k, v).
Proof.
  intros Hk Hv Nk Nv. unfold validate_env_item, is_string in *.
  rewrite Hk, Hv. simpl.
  destruct (nulls_before_last_spec k Hk) as (b & E & Hb). rewrite E. simpl.
  destruct b; [exfalso; apply (nul_free_not_interior k Nk), Hb; reflexivity |].
  simpl.
  destruct (nulls_before_last_spec v Hv) as (c & E' & Hc). rewrite E'. simpl.
  destruct c; [exfalso; apply (nul_free_not_interior v Nv), Hc; reflexivity |].
  simpl. rewrite (rstrip_nul_clean k Hk Nk), (rstrip_nul_clean v Hv Nv).
  reflexivity.
Qed.

(** *** The dictionary that is built *)

Lemma list_eqb_refl {A} (eqb : A -> A -> bool) :
  (forall a, eqb a a = true) -> forall l, list_eqb eqb l l = true.
Proof.
  intros H. induction l as [| a t IH]; simpl; auto.
  rewrite H, IH. reflexivity.
Qed.

Lemma key_eqb_refl k : is_string k -> key_eqb k k = true.
Proof.
  destruct k; try discriminate; intros _; simpl; apply list_eqb_refl.
  - intro a. apply Byte.byte_dec_lb. reflexivity.
  - intro a. apply Ascii.eqb_refl.
Qed.

Lemma dict_set_keys_incl k v d k0 :
  In k0 (map fst (dict_set k v d)) -> In k0 (map fst d) \/ k0 = k.
Proof.
  induction d as [| [k1 v1] t IH]; simpl.
  - intros [H | []]; auto.
  - destruct (key_eqb k1 k); simpl; intros [H | H]; auto.
    destruct (IH H); auto.
Qed.

Lemma dict_set_keeps_keys k v d k0 :
  In k0 (map fst d) -> In k0 (map fst (dict_set k v d)).
Proof.
  induction d as [| [k1 v1] t IH]; simpl; [tauto |].
  destruct (key_eqb k1 k); simpl; intros [H | H]; auto.
Qed.

Lemma dict_set_has_key k v d : is_string k -> In k (map fst (dict_set k v d)).
Proof.
  intro Hk. induction d as [| [k1 v1] t IH]; simpl; [auto |].
  destruct (key_eqb k1 k) eqn:E; simpl; [| auto].
  apply key_eqb_eq in E. auto.
Qed.

Lemma dict_set_NoDup k v d :
  is_string k -> NoDup (map fst d) -> NoDup (map fst (dict_set k v d)).
Proof.
  intro Hk. induction d as [| [k1 v1] t IH]; simpl; intro H.
  - constructor; [intros [] | constructor].
  - inversion H as [| ? ? Hnin Hnd]; subst.
    destruct (key_eqb k1 k) eqn:E; simpl.
    + constructor; assumption.
    + constructor; [| apply IH; exact Hnd].
      intro Hin. apply dict_set_keys_incl in Hin. destruct Hin as [Hin | ->].
      * contradiction.
      * rewrite (key_eqb_refl k Hk) in E. discriminate.
Qed.

Lemma validate_env_keys items : forall acc env',
  NoDup (map fst acc) ->
  validate_env items acc = Ok env' ->
  NoDup (map fst env') /\
  (forall k0, In k0 (map fst acc) -> In k0 (map fst env')) /\
  (forall k v, In (k, v) items ->
               exists k', In k' (map fst env') /\ stripped_of k k').
Proof.
  induction items as [| [k v] rest IH]; intros acc env' Hnd H; simpl in H.
  - inversion H; subst. repeat split; auto. intros k v [].
  - invert_Ok H. destruct a as [k' v'].
    destruct (validate_env_item_Ok _ _ _ _ E) as (_ & _ & S1 & _ & _ & _).
    pose proof (stripped_is_string _ _ S1) as Hk'.
    destruct (IH (dict_set k' v' acc) env' (dict_set_NoDup _ _ _ Hk' Hnd) H)
      as (G1 & G2 & G3).
    split; [exact G1 |]. split.
    + intros k0 Hk0. apply G2. apply dict_set_keeps_keys. exact Hk0.
    + intros a b [Hab | Hab].
      * inversion Hab; subst. exists k'. split; [| exact S1].
        apply G2. apply dict_set_has_key. exact Hk'.
      * apply (G3 a b Hab).
Qed.

(** Rebuilding a dictionary from its own items gives it back. *)
Lemma dict_set_fresh k v d :
  ~ In k (map fst d) -> dict_set k v d = d ++ [(k, v)].
Proof.
  induction d as [| [k1 v1] t IH]; simpl; intro H; [reflexivity |].
  destruct (key_eqb k1 k) eqn:E.
  - apply key_eqb_eq in E. subst. exfalso. apply H. auto.
  - rewrite IH by tauto. reflexivity.
Qed.

Lemma validate_env_clean items : forall acc,
  NoDup (map fst (acc ++ items)) ->
  Forall (fun kv => is_string (fst kv) /\ is_string (snd kv) /\
                    nul_free (fst kv) /\ nul_free (snd kv)) items ->
  validate_env items acc = Ok (acc ++ items).
Proof.
  induction items as [| [k v] rest IH]; intros acc Hnd Hall; simpl.
  - rewrite app_nil_r. reflexivity.
  - inversion Hall as [| ? ? (Hk & Hv & Nk & Nv) Hrest]; subst. simpl in *.
    rewrite (validate_env_item_clean k v Hk Hv Nk Nv). simpl.
    assert (Hfresh : ~ In k (map fst acc)).
    { rewrite map_app in Hnd. simpl in Hnd.
      apply NoDup_remove_2 in Hnd. intro Hin. apply Hnd.
      apply in_or_app. left. exact Hin. }
    rewrite (dict_set_fresh k v acc Hfresh).
    rewrite IH.
    + rewrite <- app_assoc. reflexivity.
    + rewrite <- app_assoc. exact Hnd.
    + exact Hrest.
Qed.

Section WithSystem.
Variable which : list ascii -> option (list ascii).
Variables path_exists path_isfile access_X_OK : list ascii -> bool.
Variable os_environ : dict.

Local Abbreviation validate :=
  (_validate which path_exists path_isfile access_X_OK os_environ).

(** X9: an executable that comes out of the validation is a string for
    which the three file tests have answered yes: it exists, is a regular
    file and may be executed. *)
Theorem validated_executable_passes_file_tests cwd executable argv env
        exe argv' env' :
  _validate which path_exists path_isfile access_X_OK os_environ
            cwd executable argv env = Ok (exe, argv', env') ->
  exists path, exe = VStr path /\
               path_exists path = true /\ path_isfile path = true /\
               access_X_OK path = true.
Proof.
  unfold _validate. intro H. invert_Ok H. inversion H; subst; clear H.
  exists a1. repeat split.
  - destruct (path_exists a1); [reflexivity | discriminate].
  - destruct (path_isfile a1); [reflexivity | discriminate].
  - destruct (access_X_OK a1); [reflexivity | discriminate].
Qed.

Lemma validated_env_keys_of_loop cwd executable argv env exe argv' env' :
  validate cwd executable argv env = Ok (exe, argv', env') ->
  validate_env (env_items os_environ env) [] = Ok env'.
Proof.
  unfold _validate. intro H. invert_Ok H. inversion H; subst; clear H.
  exact E2.
Qed.

(** X10: the keys of the validated environment are pairwise distinct,
    and every key of the input is there in its stripped form. *)
Theorem validated_env_keys cwd executable argv env exe argv' env' :
  validate cwd executable argv env = Ok (exe, argv', env') ->
  NoDup (map fst env') /\
  forall k v, In (k, v) (env_items os_environ env) ->
              exists k', In k' (map fst env') /\ stripped_of k k'.
Proof.
  intro H. apply validated_env_keys_of_loop in H.
  destruct (validate_env_keys _ [] env' (NoDup_nil _) H) as (G1 & _ & G3).
  split; assumption.
Qed.

(** X11: validation is idempotent on what it cleans: the argv and the
    environment it returns pass the two loops again unchanged. *)
Theorem validation_is_idempotent cwd executable argv env exe argv' env' :
  validate cwd executable argv env = Ok (exe, argv', env') ->
  validate_argv 0 argv' = Ok argv' /\ validate_env env' [] = Ok env'.
Proof.
  intro H.
  destruct (validate_Ok _ _ _ _ _ _ _ _ _ _ _ _ H)
    as (items & _ & S & N & _ & F & _).
  destruct (validate_env_keys _ [] env' (NoDup_nil _)
              (validated_env_keys_of_loop _ _ _ _ _ _ _ H)) as [Hnd _].
  split.
  - apply validate_argv_clean; [| exact N].
    clear - S. induction S as [| a r l l' Har _ IH]; constructor;
      [exact (stripped_is_string a r Har) | exact IH].
  - apply (validate_env_clean env' []); [exact Hnd |].
    apply Forall_forall. intros [k v] Hin. simpl.
    destruct (F k v Hin) as (Nk & Nv & k0 & v0 & _ & Sk & Sv).
    split; [exact (stripped_is_string k0 k Sk) |].
    split; [exact (stripped_is_string v0 v Sv) |].
    split; assumption.
Qed.

(** X12: malformed argv is refused before anything else is looked at.
    An entry that is no string raises the error that carries the whole
    argv; an empty argv without an executable raises "Must specify argv or
    executable". *)
Theorem malformed_argv_is_refused cwd executable argv env :
  (forall items,
      argv_items argv = Ok items ->
      Exists (fun a => isinstance_bytes_str a = false) items ->
      validate cwd executable argv env =
        Err (PwnlibException "argv must only contain bytes or strings: %r"
                             [VList items])) /\
  (argv = VList [] -> truth executable = false ->
   validate cwd executable argv env =
     Err (PwnlibException "Must specify argv or executable" [])).
Proof.
  split.
  - intros items Hitems Hex. unfold _validate. rewrite Hitems. simpl.
    assert (E : forallb isinstance_bytes_str items = false).
    { apply Exists_exists in Hex. destruct Hex as (x & Hx & Hbad).
      destruct (forallb isinstance_bytes_str items) eqn:F; [| reflexivity].
      rewrite forallb_forall in F. rewrite (F x Hx) in Hbad. discriminate. }
    rewrite E. reflexivity.
  - intros -> Ht. unfold _validate, resolve_executable. simpl.
    rewrite Ht. reflexivity.
Qed.
End WithSystem.

Lemma validated_executable_passes_file_tests_witness :
  exists path, pystr "/bin/echo" = VStr path /\
               every_path path = true /\ every_path path = true /\
               every_path path = true.
Proof.
  apply (validated_executable_passes_file_tests no_which every_path every_path
           every_path [] VNone VNone sample_argv (Some sample_env)
           (pystr "/bin/echo") [pystr "/bin/echo"; VBytes [x68; x69]]
           [(pystr "HOME", pystr "/root")]).
  reflexivity.
Defined.

Lemma validated_env_keys_witness :
  NoDup (map fst [(pystr "HOME", pystr "/root")]) /\
  forall k v, In (k, v) (env_items [] (Some sample_env)) ->
              exists k', In k' (map fst [(pystr "HOME", pystr "/root")]) /\
                         stripped_of k k'.
Proof.
  apply (validated_env_keys no_which every_path every_path every_path []
           VNone VNone sample_argv (Some sample_env) (pystr "/bin/echo")
           [pystr "/bin/echo"; VBytes [x68; x69]]).
  reflexivity.
Defined.

Lemma validation_is_idempotent_witness :
  validate_argv 0 [pystr "/bin/echo"; VBytes [x68; x69]]
    = Ok [pystr "/bin/echo"; VBytes [x68; x69]] /\
  validate_env [(pystr "HOME", pystr "/root")] []
    = Ok [(pystr "HOME", pystr "/root")].
Proof.
  apply (validation_is_idempotent no_which every_path every_path every_path []
           VNone VNone sample_argv (Some sample_env) (pystr "/bin/echo")).
  reflexivity.
Defined.

Lemma malformed_argv_is_refused_witness :
  _validate no_which every_path every_path every_path [] VNone VNone
            (VList [pystr "sh"; VInt 7]) None
    = Err (PwnlibException "argv must only contain bytes or strings: %r"
                           [VList [pystr "sh"; VInt 7]]) /\
  _validate no_which every_path every_path every_path [] VNone VNone
            (VList []) None
    = Err (PwnlibException "Must specify argv or executable" []).
Proof.
  pose proof (malformed_argv_is_refused no_which every_path every_path
                every_path [] VNone VNone (VList [pystr "sh"; VInt 7]) None) as A.
  pose proof (malformed_argv_is_refused no_which every_path every_path
                every_path [] VNone VNone (VList []) None) as B.
  split.
  - apply (proj1 A _ eq_refl).
    apply Exists_cons_tl. apply Exists_cons_hd. reflexivity.
  - apply (proj2 B); reflexivity.
Defined.

End ValidateMore.

(** ** Traces *)

Module TraceFacts.
Import TraceSpec.

Section AddsOnly.
Context {Act : Type} (ok : Act -> bool).

Lemma adds_ret {A} (a : A) : adds_only ok (@ret (list Act) A a).
Proof. intro tr. exists []. rewrite app_nil_r. auto. Qed.

Lemma adds_raise {A} e : adds_only ok (@raise (list Act) A e).
Proof. intro tr. exists []. rewrite app_nil_r. auto. Qed.

Lemma adds_call {A} (a : Act) (r : answer A) :
  ok a = true -> adds_only ok (call a r).
Proof. intros H tr. exists [a]. simpl. rewrite H. auto. Qed.

Lemma adds_bind {A B} (m : M (list Act) A) (k : A -> M (list Act) B) :
  adds_only ok m -> (forall a, adds_only ok (k a)) -> adds_only ok (bind m k).
Proof.
  intros Hm Hk tr. unfold bind. destruct (Hm tr) as (more & E & Hok).
  destruct (m tr) as [tr' [a | e |]]; simpl in *; subst tr'; eauto.
  destruct (Hk a (tr ++ more)) as (more' & E' & Hok').
  exists (more ++ more'). rewrite E', app_assoc. split; [reflexivity |].
  rewrite forallb_app, Hok, Hok'. reflexivity.
Qed.

Lemma adds_try_except {A} (m : M (list Act) A) h :
  adds_only ok m -> (forall e k, h e = Some k -> adds_only ok k) ->
  adds_only ok (try_except m h).
Proof.
  intros Hm Hh tr. unfold try_except. destruct (Hm tr) as (more & E & Hok).
  destruct (m tr) as [tr' [a | e |]]; simpl in *; subst tr'; eauto.
  destruct (h e) as [k |] eqn:Eh; simpl; eauto.
  destruct (Hh e k Eh (tr ++ more)) as (more' & E' & Hok').
  exists (more ++ more'). rewrite E', app_assoc. split; [reflexivity |].
  rewrite forallb_app, Hok, Hok'. reflexivity.
Qed.

Lemma adds_except_OSError {A} (m k : M (list Act) A) :
  adds_only ok m -> adds_only ok k ->
  adds_only ok (try_except m (except_OSError k)).
Proof.
  intros Hm Hk. apply adds_try_except; [exact Hm |].
  intros e k'. unfold except_OSError.
  destruct (is_OSError e); intro E; inversion E; subst; assumption.
Qed.

Lemma adds_only_from_empty {A} (m : M (list Act) A) :
  adds_only ok m -> forallb ok (fst (m [])) = true.
Proof. intro H. destruct (H []) as (more & E & Hok). rewrite E. exact Hok. Qed.
End AddsOnly.

End TraceFacts.

(** ** More on the child pre-exec routine *)

Module PreExecMore.
Import PreExec PreExecSpec TraceSpec TraceFacts.

Lemma adds_except_any {A} ok (m k : C A) :
  adds_only ok m -> adds_only ok k -> adds_only ok (try_except m (except_any k)).
Proof.
  intros Hm Hk. apply adds_try_except; [exact Hm |].
  intros e k'. unfold except_any. intro E. inversion E; subst. assumption.
Qed.

Ltac adds_step :=
  match goal with
  | |- adds_only _ (bind _ _) => apply adds_bind; [| intro]
  | |- adds_only _ (try_except _ (except_OSError _)) => apply adds_except_OSError
  | |- adds_only _ (try_except _ (except_any _)) => apply adds_except_any
  | |- adds_only _ (ret _) => apply adds_ret
  | |- adds_only _ (raise _) => apply adds_raise
  | |- adds_only _ (call _ _) => apply adds_call; reflexivity
  | |- adds_only _ (log_exception _) => apply adds_call; reflexivity
  | |- adds_only _ (if ?b then _ else _) => destruct b
  | |- adds_only _ (match ?x with _ => _ end) => destruct x
  end.

Ltac adds_tac := repeat adds_step.

(** X13: the routine does not do what was not asked for.  With ASLR
    left on it calls neither [personality] nor [setrlimit(RLIMIT_STACK)];
    for a target treated as setuid it never calls [personality]; and it
    calls [prctl] only when setuid was switched off. *)
Theorem preexec_skips_what_is_not_asked self w :
  (aslr self = true ->
   forallb (fun a => negb (aslr_action a)) (fst (_preexec_fn self w [])) = true) /\
  (_setuid self = Some true ->
   forallb (fun a => negb (personality_action a))
           (fst (_preexec_fn self w [])) = true) /\
  (_setuid self <> Some false ->
   forallb (fun a => negb (prctl_action a)) (fst (_preexec_fn self w [])) = true).
Proof.
  split; [| split].
  - intro Ha. apply adds_only_from_empty. unfold _preexec_fn. rewrite Ha.
    assert (T : forall fd, adds_only (fun a => negb (aslr_action a))
                             (_pty_make_controlling_tty w fd)).
    { intro fd. unfold _pty_make_controlling_tty. adds_tac. }
    simpl negb. cbv iota.
    apply adds_bind; [destruct (pty self); [apply T | apply adds_ret] | intro].
    adds_tac.
  - intro Hs. apply adds_only_from_empty. unfold _preexec_fn. rewrite Hs.
    assert (T : forall fd, adds_only (fun a => negb (personality_action a))
                             (_pty_make_controlling_tty w fd)).
    { intro fd. unfold _pty_make_controlling_tty. adds_tac. }
    simpl is_True. simpl is_False. rewrite andb_false_r.
    apply adds_bind; [destruct (pty self); [apply T | apply adds_ret] | intro].
    adds_tac.
  - intro Hs. apply adds_only_from_empty. unfold _preexec_fn.
    assert (T : forall fd, adds_only (fun a => negb (prctl_action a))
                             (_pty_make_controlling_tty w fd)).
    { intro fd. unfold _pty_make_controlling_tty. adds_tac. }
    assert (F : is_False (_setuid self) = false).
    { destruct (_setuid self) as [[|] |]; try reflexivity. congruence. }
    rewrite F.
    apply adds_bind; [destruct (pty self); [apply T | apply adds_ret] | intro].
    adds_tac.
Qed.

Lemma preexec_skips_what_is_not_asked_witness :
  forallb (fun a => negb (aslr_action a))
          (fst (_preexec_fn default_settings all_granted [])) = true /\
  forallb (fun a => negb (prctl_action a))
          (fst (_preexec_fn default_settings all_granted [])) = true.
Proof.
  pose proof (preexec_skips_what_is_not_asked default_settings all_granted) as H.
  split.
  - apply (proj1 H). reflexivity.
  - apply (proj2 (proj2 H)). discriminate.
Defined.

(** X14: handing over the controlling terminal.  When [/dev/tty] can
    still be opened after [setsid], the routine raises and does not go on
    to open the child pty; it returns when [/dev/tty] is refused after
    [setsid] and both the child pty and the new [/dev/tty] can be opened.
    A refusal of the very first open of [/dev/tty] (no controlling
    terminal to begin with) changes neither. *)
Theorem controlling_tty_handover w tty_fd name :
  ttyname_res w = Returns name ->
  returns_or_OSError (open_tty_before w) ->
  setsid_res w = Returns tt ->
  (forall fd, open_tty_after w = Returns fd -> (0 <= fd)%Z ->
     snd (_pty_make_controlling_tty w tty_fd []) =
       Raise (Exception_ "Failed to disconnect from controlling tty. It is still possible to open /dev/tty.") /\
     ~ In (Open name "O_RDWR") (fst (_pty_make_controlling_tty w tty_fd []))) /\
  (forall fd1 fd2,
     refused (open_tty_after w) ->
     open_child_res w = Returns fd1 -> (0 <= fd1)%Z ->
     open_tty_final w = Returns fd2 -> (0 <= fd2)%Z ->
     snd (_pty_make_controlling_tty w tty_fd []) = Ret tt /\
     In (Open name "O_RDWR") (fst (_pty_make_controlling_tty w tty_fd []))).
Proof.
  intros Hname Hbefore Hsetsid.
  unfold _pty_make_controlling_tty.
  destruct w as [tn ob ss oa oc ofin p1 p2 p3 p4 p5 p6]. simpl in *.
  subst tn ss.
  assert (Hge : forall fd, (0 <= fd)%Z -> (fd >=? 0)%Z = true)
    by (intros; apply Z.geb_le; assumption).
  assert (Hlt : forall fd, (0 <= fd)%Z -> (fd <? 0)%Z = false)
    by (intros; apply Z.ltb_ge; assumption).
  split.
  - intros fd Hafter Hfd. subst oa.
    destruct ob as [fd0 | e0];
      [destruct (fd0 >=? 0)%Z eqn:E0 | destruct e0; try discriminate Hbefore];
      cbv [bind try_except call except_OSError is_OSError ret raise fst snd app];
      rewrite ?E0; cbv [bind try_except call except_OSError is_OSError ret raise fst snd app];
      rewrite (Hge fd Hfd);
      (split; [reflexivity |]);
      simpl; intro H;
      repeat (destruct H as [H | H]; [discriminate H |]); exact H.
  - intros fd1 fd2 Hafter Hc H1 Hf H2. subst oc ofin.
    destruct oa as [fda | ea]; [contradiction |].
    destruct ea; try discriminate Hafter.
    destruct ob as [fd0 | e0];
      [destruct (fd0 >=? 0)%Z eqn:E0 | destruct e0; try discriminate Hbefore];
      cbv [bind try_except call except_OSError is_OSError ret raise fst snd app];
      rewrite ?E0; cbv [bind try_except call except_OSError is_OSError ret raise fst snd app];
      rewrite (Hlt fd1 H1); cbv [bind try_except call except_OSError is_OSError ret raise fst snd app];
      rewrite (Hlt fd2 H2);
      (split; [reflexivity |]); simpl; tauto.
Qed.

Lemma controlling_tty_handover_witness :
  snd (_pty_make_controlling_tty all_granted 1%Z []) = Ret tt /\
  In (Open "/dev/pts/3" "O_RDWR")
     (fst (_pty_make_controlling_tty all_granted 1%Z [])).
Proof.
  refine (proj2 (controlling_tty_handover all_granted 1%Z "/dev/pts/3"
                   eq_refl I eq_refl) 3%Z 3%Z _ eq_refl _ eq_refl _).
  - reflexivity.
  - discriminate.
  - discriminate.
Defined.

(** X15: once the core-dump limit is raised, nothing but the caller's
    hook decides the outcome: the write of the core-dump filter and the
    [prctl] call may fail in any way, the hook is run all the same and its
    result is the result of the routine. *)
Theorem best_effort_steps_never_propagate self w :
  pty self = None -> aslr self = true ->
  setrlimit_core_res w = Returns tt ->
  snd (_preexec_fn self w []) =
    match preexec_fn_res w with
    | Returns u => Ret u
    | Fails e => Raise e
    end /\
  last (fst (_preexec_fn self w [])) Setsid = UserPreexecFn.
Proof.
  intros Hp Ha Hc. rewrite (PreExecFacts.preexec_without_pty self w Hp Ha).
  destruct w as [tn ob ss oa oc ofin p1 p2 p3 p4 p5 p6]. simpl in *. subst p3.
  destruct (_setuid self) as [[|] |], p4 as [[] | e4], p5 as [[] | e5],
    p6 as [[] | e6]; split; reflexivity.
Qed.

Lemma best_effort_steps_never_propagate_witness :
  snd (_preexec_fn (mksettings None true (Some false) true) filter_unwritable [])
    = Ret tt /\
  last (fst (_preexec_fn (mksettings None true (Some false) true)
                         filter_unwritable [])) Setsid
    = UserPreexecFn.
Proof.
  apply (best_effort_steps_never_propagate
           (mksettings None true (Some false) true) filter_unwritable);
    reflexivity.
Defined.

End PreExecMore.

(** ** More on the launcher loop *)

Module LauncherMore.
Import Launcher LauncherSpec.

Section WithSystem.
Variable Popen : list pyval -> pyval -> answer Z.
Variable get_qemu_user : answer pyval.

(** X16: the native executable is always attempted first, with the
    argv as given, and at most two creations are attempted in all. *)
Theorem native_first_and_at_most_two_attempts executable argv :
  (exists rest,
      fst (spawn Popen get_qemu_user executable argv [])
        = PopenCall argv executable :: rest) /\
  (attempts (fst (spawn Popen get_qemu_user executable argv [])) <= 2)%nat.
Proof.
  unfold spawn, prefixes, attempts.
  destruct get_qemu_user as [qemu | eq];
    cbn [spawn_loop app];
    unfold bind, try_except, call, ret, raise; cbn [app];
    destruct (Popen argv executable) as [pid | e]; cbn;
    try (split; [eexists; reflexivity | lia]);
    destruct e; cbn; try (split; [eexists; reflexivity | lia]);
    destruct (errno =? ENOEXEC)%Z; cbn;
    try (split; [eexists; reflexivity | lia]);
    destruct (Popen (qemu :: argv) qemu) as [pid | e]; cbn;
    try (split; [eexists; reflexivity | lia]);
    destruct e; cbn; try (split; [eexists; reflexivity | lia]);
    destruct (errno0 =? ENOEXEC)%Z; cbn;
    split; try (eexists; reflexivity); lia.
Qed.

End WithSystem.


End LauncherMore.

(** ** The pty allocator *)

Module PtyFacts.
Import Pty.

(** X18: one terminal pair serves every stream that asks for one.  When
    no stream is [PTY] (a stderr given as [STDOUT] counting as whatever
    stdout is), nothing is opened and the streams pass through.  Otherwise
    exactly one pair is opened, put into raw mode only if asked, every
    [PTY] stream gets the one slave, the other streams pass through, and
    [self.pty] is the position of a stream that asked. *)
Theorem one_pty_for_all_streams raw w stdin stdout stderr :
  let stderr0 := if is_STDOUT stderr then stdout else stderr in
  (existsb is_PTY [stdin; stdout; stderr0] = false ->
   allocate raw w stdin stdout stderr [] =
     ([], Ret (None, mkwiring stdin stdout stderr0 None None))) /\
  (existsb is_PTY [stdin; stdout; stderr0] = true ->
   forall m s,
     openpty_res w = Returns (m, s) ->
     (raw = true ->
      setraw_master_res w = Returns tt /\ setraw_slave_res w = Returns tt) ->
     exists i,
       allocate raw w stdin stdout stderr [] =
         (Openpty :: (if raw then [Setraw m; Setraw s] else []),
          Ret (Some i,
               mkwiring (wired s stdin) (wired s stdout) (wired s stderr0)
                        (Some m) (Some s))) /\
       nth_error [stdin; stdout; stderr0] (Z.to_nat i) = Some PTY).
Proof.
  intro stderr0. unfold allocate. fold stderr0. split.
  - intro H. simpl in H.
    destruct (is_PTY stdin) eqn:E1; [discriminate |].
    destruct (is_PTY stdout) eqn:E2; [discriminate |].
    destruct (is_PTY stderr0) eqn:E3; [discriminate |].
    simpl. rewrite E1, E2, E3. reflexivity.
  - intros H m s Ho Hraw.
    destruct w as [o rm rs]. simpl in *. subst o.
    assert (Hr : raw = true -> rm = Returns tt /\ rs = Returns tt) by exact Hraw.
    destruct raw.
    + destruct (Hr eq_refl) as [-> ->].
      destruct stdin, stdout, stderr0; try discriminate H;
        eexists; (split; [reflexivity | reflexivity]).
    + destruct stdin, stdout, stderr0; try discriminate H;
        eexists; (split; [reflexivity | reflexivity]).
Qed.

Lemma one_pty_for_all_streams_witness :
  exists i,
    allocate true (pty_granted 5%Z 6%Z) PIPE PTY STDOUT [] =
      ([Openpty; Setraw 5%Z; Setraw 6%Z],
       Ret (Some i, mkwiring PIPE (Int 6%Z) (Int 6%Z) (Some 5%Z) (Some 6%Z))) /\
    nth_error [PIPE; PTY; PTY] (Z.to_nat i) = Some PTY.
Proof.
  apply (proj2 (one_pty_for_all_streams true (pty_granted 5%Z 6%Z) PIPE PTY STDOUT)
               eq_refl 5%Z 6%Z eq_refl).
  intros _. split; reflexivity.
Defined.

End PtyFacts.

(** ** The map of loaded libraries *)

Module LibsFacts.
Import Libs.

(** *** The dictionary *)

Lemma lookup_set_same k a m : lookup k (set k a m) = Some a.
Proof.
  induction m as [| [k0 a0] rest IH]; simpl.
  - rewrite String.eqb_refl. reflexivity.
  - destruct (String.eqb k0 k) eqn:E; simpl; rewrite E; auto.
Qed.

Lemma lookup_set_other k k' a m :
  k <> k' -> lookup k' (set k a m) = lookup k' m.
Proof.
  intro Hne. induction m as [| [k0 a0] rest IH]; simpl.
  - apply String.eqb_neq in Hne. rewrite Hne. reflexivity.
  - destruct (String.eqb k0 k) eqn:E; simpl.
    + apply String.eqb_eq in E. subst k0.
      apply String.eqb_neq in Hne. rewrite Hne. reflexivity.
    + rewrite IH. reflexivity.
Qed.

Lemma lookup_keys k m : lookup k m <> None <-> In k (map fst m).
Proof.
  induction m as [| [k0 a0] rest IH]; simpl.
  - split; [congruence | tauto].
  - destruct (String.eqb k0 k) eqn:E.
    + apply String.eqb_eq in E. split; [auto | discriminate].
    + apply String.eqb_neq in E. rewrite IH. split; [auto | intros [H | H]; tauto].
Qed.

Lemma set_keys_incl k a m k' :
  In k' (map fst (set k a m)) <-> In k' (map fst m) \/ k' = k.
Proof.
  rewrite <- !lookup_keys. destruct (String.eqb k k') eqn:E.
  - apply String.eqb_eq in E. subst k'. rewrite lookup_set_same.
    split; [auto | discriminate].
  - apply String.eqb_neq in E. rewrite lookup_set_other by exact E.
    split; [auto | intros [H | H]; [exact H | congruence]].
Qed.

Lemma set_NoDup k a m : NoDup (map fst m) -> NoDup (map fst (set k a m)).
Proof.
  induction m as [| [k0 a0] rest IH]; simpl; intro H.
  - constructor; [intros [] | constructor].
  - inversion H as [| ? ? Hnin Hnd]; subst.
    destruct (String.eqb k0 k) eqn:E; simpl.
    + constructor; assumption.
    + constructor; [| apply IH; exact Hnd].
      intro Hin. apply set_keys_incl in Hin. destruct Hin as [Hin | ->].
      * contradiction.
      * rewrite String.eqb_refl in E. discriminate.
Qed.

Section WithSystem.
Variable realpath : string -> string.
Variable int16 : string -> answer Z.

(** *** The first loop *)

Lemma lookup_add_line lib m line :
  lookup lib (add_line realpath m line) =
    match lookup lib m with
    | Some a => Some a
    | None =>
        match from_slash line with
        | Some p => if String.eqb (realpath p) lib then Some 0%Z else None
        | None => None
        end
    end.
Proof.
  unfold add_line. destruct (from_slash line) as [p |].
  - destruct (lookup (realpath p) m) as [a |] eqn:E.
    + destruct (lookup lib m) eqn:L; [reflexivity |].
      destruct (String.eqb (realpath p) lib) eqn:Q; [| reflexivity].
      apply String.eqb_eq in Q. congruence.
    + destruct (String.eqb (realpath p) lib) eqn:Q.
      * apply String.eqb_eq in Q. subst lib.
        rewrite lookup_set_same, E. reflexivity.
      * apply String.eqb_neq in Q. rewrite lookup_set_other by exact Q.
        destruct (lookup lib m); reflexivity.
  - destruct (lookup lib m); reflexivity.
Qed.

Lemma lookup_add_loaded lib lines : forall m,
  lookup lib (add_loaded realpath m lines) =
    match lookup lib m with
    | Some a => Some a
    | None => if listed realpath lines lib then Some 0%Z else None
    end.
Proof.
  induction lines as [| line rest IH]; intro m; simpl.
  - destruct (lookup lib m); reflexivity.
  - unfold add_loaded in *. simpl. rewrite IH, lookup_add_line.
    destruct (lookup lib m); [reflexivity |].
    destruct (from_slash line) as [p |]; simpl; [| reflexivity].
    destruct (String.eqb (realpath p) lib); reflexivity.
Qed.

Lemma add_loaded_NoDup lines : forall m,
  NoDup (map fst m) -> NoDup (map fst (add_loaded realpath m lines)).
Proof.
  induction lines as [| line rest IH]; intros m H; simpl; [exact H |].
  apply IH. unfold add_line.
  destruct (from_slash line) as [p |]; [| exact H].
  destruct (lookup (realpath p) m); [exact H | apply set_NoDup; exact H].
Qed.

(** *** The second loop *)

Lemma locate_spec lines keys : forall m result,
  NoDup keys ->
  locate realpath int16 lines keys m = Returns result ->
  forall lib,
    (In lib (map fst result) <-> In lib (map fst m) \/ 
       (In lib keys /\ line_of realpath lines lib <> None)) /\
    (~ In lib keys \/ line_of realpath lines lib = None ->
     lookup lib result = lookup lib m) /\
    (forall line, In lib keys -> line_of realpath lines lib = Some line ->
       exists a, int16 (before_dash line) = Returns a /\
                 lookup lib result = Some a).
Proof.
  induction keys as [| k rest IH]; intros m result Hnd H lib; simpl in H.
  - inversion H; subst. split; [| split].
    + simpl. tauto.
    + reflexivity.
    + intros line [].
  - inversion Hnd as [| ? ? Hnin Hrest]; subst.
    destruct (line_of realpath lines k) as [line |] eqn:Lk.
    + destruct (int16 (before_dash line)) as [a |] eqn:Ia; [| discriminate].
      destruct (IH _ _ Hrest H lib) as (K & U & F).
      split; [| split].
      * rewrite K, set_keys_incl. simpl. split.
        -- intros [[Hin | ->] | [Hin Hl]]; auto.
           right. split; [auto | congruence].
        -- intros [Hin | [[-> | Hin] Hl]]; auto.
      * intros Hcase.
        assert (Hne : k <> lib).
        { intros ->. destruct Hcase as [Hc | Hc]; [apply Hc; left; reflexivity |].
          congruence. }
        rewrite U.
        -- apply lookup_set_other. exact Hne.
        -- destruct Hcase as [Hc | Hc]; [left; intro; apply Hc; right; assumption | auto].
      * intros line' [-> | Hin] Hl.
        -- rewrite Lk in Hl. inversion Hl; subst line'.
           exists a. split; [exact Ia |].
           rewrite U by (left; exact Hnin). apply lookup_set_same.
        -- apply (F line' Hin Hl).
    + destruct (IH _ _ Hrest H lib) as (K & U & F).
      split; [| split].
      * rewrite K. simpl. split.
        -- intros [Hin | [Hin Hl]]; auto.
        -- intros [Hin | [[-> | Hin] Hl]]; auto. congruence.
      * intros Hcase. apply U.
        destruct Hcase as [Hc | Hc]; [left; intro; apply Hc; right; assumption | auto].
      * intros line' [-> | Hin] Hl; [congruence | apply (F line' Hin Hl)].
Qed.

(** X19: the keys of [libs()].  When the listing of the process cannot
    be read ([OSError]) the map of [ldd] is returned as it is.  When it
    can, the result has an entry for every library of [ldd] and for every
    file the listing names, and for nothing else. *)
Theorem libs_entries ldd :
  (forall errno msg, libs realpath int16 ldd (Fails (OSError errno msg)) = Returns ldd) /\
  (forall lines result,
      NoDup (map fst ldd) ->
      libs realpath int16 ldd (Returns lines) = Returns result ->
      forall lib,
        lookup lib result <> None <->
        lookup lib ldd <> None \/ listed realpath lines lib = true).
Proof.
  split; [reflexivity |].
  intros lines result Hnd H lib. unfold libs in H.
  pose proof (add_loaded_NoDup lines ldd Hnd) as Hnd'.
  destruct (locate_spec lines _ _ _ Hnd' H lib) as (K & _ & _).
  rewrite lookup_keys, K, <- lookup_keys, lookup_add_loaded.
  destruct (lookup lib ldd) as [a |] eqn:L.
  - split; [left; discriminate | left; discriminate].
  - destruct (listed realpath lines lib) eqn:Li.
    + split; [right; reflexivity | left; discriminate].
    + split.
      * intros [Hc | [Hin _]]; congruence.
      * intros [Hc | Hc]; congruence.
Qed.

(** X20: the addresses of [libs()].  A library (or listed file) whose
    real path ends a line of the listing gets the address written at the
    start of the first such line, read as hexadecimal; one that ends no
    line keeps the address [ldd] gave, or 0 when it comes from the listing
    alone. *)
Theorem libs_addresses ldd lines result lib :
  NoDup (map fst ldd) ->
  libs realpath int16 ldd (Returns lines) = Returns result ->
  (forall line,
      lookup lib ldd <> None \/ listed realpath lines lib = true ->
      line_of realpath lines lib = Some line ->
      exists a, int16 (before_dash line) = Returns a /\
                lookup lib result = Some a) /\
  (line_of realpath lines lib = None ->
   lookup lib result =
     match lookup lib ldd with
     | Some a => Some a
     | None => if listed realpath lines lib then Some 0%Z else None
     end).
Proof.
  intros Hnd H. unfold libs in H.
  pose proof (add_loaded_NoDup lines ldd Hnd) as Hnd'.
  destruct (locate_spec lines _ _ _ Hnd' H lib) as (_ & U & F).
  split.
  - intros line Hkey Hline. apply F; [| exact Hline].
    apply lookup_keys. rewrite lookup_add_loaded.
    destruct (lookup lib ldd); [discriminate |].
    destruct Hkey as [Hc | ->]; [congruence | discriminate].
  - intro Hline. rewrite U by (right; exact Hline).
    apply lookup_add_loaded.
Qed.
End WithSystem.

Lemma libs_entries_witness :
  lookup "/bin/cat" [("/lib/libc.so.6", 8323072%Z); ("/bin/cat", 4194304%Z)]
    <> None <->
  lookup "/bin/cat" sample_ldd <> None \/
  listed same_path sample_lines "/bin/cat" = true.
Proof.
  apply (proj2 (libs_entries same_path hex_of_sample sample_ldd) sample_lines).
  - constructor; [intros [] | constructor].
  - reflexivity.
Defined.

Lemma libs_addresses_witness :
  exists a,
    hex_of_sample
      (before_dash "7f0000-7f1000 r-xp 00000000 08:01 2 /lib/libc.so.6")
      = Returns a /\
    lookup "/lib/libc.so.6"
           [("/lib/libc.so.6", 8323072%Z); ("/bin/cat", 4194304%Z)] = Some a.
Proof.
  refine (proj1 (libs_addresses same_path hex_of_sample sample_ldd sample_lines
                   [("/lib/libc.so.6", 8323072%Z); ("/bin/cat", 4194304%Z)]
                   "/lib/libc.so.6" _ eq_refl) _ _ eq_refl).
  - constructor; [intros [] | constructor].
  - left. discriminate.
Defined.

End LibsFacts.
